(** * inject: a type-indexed dependency injector (Go, package [inject])

    A shallow embedding of [inject.go] together with the part of Go's
    [reflect] package the injector is written against.  The injector keeps a
    [map[reflect.Type]reflect.Value] and an optional parent; [Get] resolves a
    type by exact key, then by interface satisfaction, then through the
    parent; [Apply] fills the tagged fields of a struct and [Invoke] calls a
    function with resolved arguments. *)

From Stdlib Require Import ZArith Lia.
From stdpp Require Import gmap strings list fin_maps.

Local Open Scope string_scope.
Set Warnings "-register-all".

(** ** The reflect package *)

Module reflect.

(** [reflect.Kind], for the kinds that occur in this development. *)
Inductive Kind : Type :=
  | Invalid | Bool | Int | String_ | Chan
  | Func | Interface | Ptr | Slice | Struct.

Global Instance Kind_eq_dec : EqDecision Kind.
Proof. solve_decision. Defined.

(** [reflect.StructTag]: the raw tag text and the key/value pairs that
    [StructTag.Get] reads out of its conventional [key:value] format. *)
Record StructTag : Type := mkTag {
  tag_raw : string;
  tag_pairs : list (string * string)
}.

(** [reflect.StructField], over the type of type descriptors. *)
Record StructField (T : Type) : Type := mkField {
  Name : string;
  PkgPath : string;      (* empty for an exported field *)
  Tag : StructTag;
  FieldType : T
}.
Arguments mkField {T} _ _ _ _.
Arguments Name {T} _.
Arguments PkgPath {T} _.
Arguments Tag {T} _.
Arguments FieldType {T} _.

(** A type descriptor: the unnamed pointer type [*elem], or one of the
    other types of the program, the defined pointer types among them: what
    a defined type points to is given by [Elem] below, so that a pointer
    type may be its own element type. *)
Inductive rtype (base : Type) : Type :=
  | TBase (b : base)
  | TPtr (elem : rtype base).
Arguments TBase {base} _.
Arguments TPtr {base} _.

Global Instance rtype_eq_dec {base} `{EqDecision base} : EqDecision (rtype base).
Proof. solve_decision. Defined.

(** What [reflect] knows about the types of a program.  [reflect.Type] is a
    Go interface; its methods are the fields of this class, and every
    statement below holds for every program's types.  A type is the
    unnamed pointer type [*e] ([TPtr e]) or one of the other types of the
    program ([TBase b]).  Among the latter are the defined pointer types:
    after [type Q *int] and [type P *P] the kind of [Q] and of [P] is
    [Ptr], and [P] is its own element type. *)
Class Types : Type := {
  base : Type;
  base_eq_dec :: EqDecision base;
  (** [Kind] of a type other than an unnamed pointer type *)
  base_Kind : base -> Kind;
  (** [NumField]/[Field] of a struct type *)
  Fields : base -> list (StructField (rtype base));
  (** [NumIn]/[In] and [IsVariadic] of a function type *)
  In : base -> list (rtype base);
  IsVariadic : base -> bool;
  (** [Elem] of a slice type or of a defined pointer type *)
  Elem : base -> rtype base;
  (** [k.Implements(u)], for an interface type [u] *)
  Implements : rtype base -> rtype base -> bool;
  (** [x.AssignableTo(t)] *)
  AssignableTo : rtype base -> rtype base -> bool
}.

Section Reflect.
Context {U : Types}.

(** [reflect.Type] as the injector sees it: a Go interface value, nil
    ([None]) or a type.  [reflect.TypeOf(nil)] is the nil [Type], and a
    method call on it is a nil dereference. *)
Definition Type_ : Type := option (rtype base).

(** [Type.Kind] *)
Definition Type_Kind (t : rtype base) : Kind :=
  match t with
  | TBase b => base_Kind b
  | TPtr _ => Ptr
  end.

(** [Type.Elem] *)
Definition Type_Elem (t : rtype base) : rtype base :=
  match t with
  | TBase b => Elem b
  | TPtr e => e
  end.

(** [t.NumField()] and [t.Field(i)]: the fields of a struct type. *)
Definition Type_Fields (t : rtype base) : list (StructField (rtype base)) :=
  match t with
  | TBase b => Fields b
  | TPtr _ => []
  end.

(** [t.NumIn()] and [t.In(i)]: the parameters of a function type. *)
Definition Type_In (t : rtype base) : list (rtype base) :=
  match t with
  | TBase b => In b
  | TPtr _ => []
  end.

(** [StructTag.Get]: the value stored under [key], or the empty string. *)
Fixpoint Tag_pairs_get (ps : list (string * string)) (key : string) : string :=
  match ps with
  | [] => ""
  | (k, v) :: rest => if String.eqb k key then v else Tag_pairs_get rest key
  end.

Definition Tag_Get (tag : StructTag) (key : string) : string :=
  Tag_pairs_get (tag_pairs tag) key.

(** Addresses of heap objects. *)
Definition addr : Type := nat.

(** A [reflect.Value] is the zero [Value] (what [reflect.ValueOf(nil)] and
    a failed map lookup give; [IsValid] is false on it) or a typed datum.
    A slot of interface type holds [DIface dyn], [dyn] being the dynamic
    value ([Zero] for a nil interface); a pointer holds nil or the address
    of its target in memory; a function value holds nil or the index of its
    body in the program. *)
Inductive Value : Type :=
  | Zero
  | Val (typ : rtype base) (d : data)
with data : Type :=
  | DBool (b : bool)
  | DInt (z : Z)
  | DString (s : string)
  | DChan (id : nat)
  | DPtr (p : option addr)
  | DFunc (f : option nat)
  | DSlice (elems : list data)
  | DStruct (fs : list data)
  | DIface (dyn : Value).

Definition IsValid (v : Value) : bool :=
  match v with Zero => false | Val _ _ => true end.

(** [Value.Kind]: [Invalid] on the zero Value. *)
Definition Value_Kind (v : Value) : Kind :=
  match v with Zero => Invalid | Val t _ => Type_Kind t end.

(** The fields of [v.Type()] ([v.NumField()], [v.Field(i)]). *)
Definition Value_Fields (v : Value) : list (StructField (rtype base)) :=
  match v with Zero => [] | Val t _ => Type_Fields t end.

(** An argument of static type [interface{}] is nil or a dynamically typed
    value; [reflect.TypeOf] and [reflect.ValueOf] split it. *)
Definition TypeOf (i : Value) : Type_ :=
  match i with Zero => None | Val t _ => Some t end.

Definition ValueOf (i : Value) : Value := i.

(** The datum stored in a slot of type [t] when [x] is assigned to it
    ([Value.assignTo]): a value assigned to an interface slot is boxed,
    unless it already is an interface value. *)
Definition assignTo (x : Value) (t : rtype base) : data :=
  match x with
  | Zero => DIface Zero
  | Val xt d =>
      if bool_decide (Type_Kind t = Interface)
      then (if bool_decide (Type_Kind xt = Interface) then d else DIface x)
      else d
  end.

End Reflect.
End reflect.

Import reflect.

(** ** Package inject *)

Section Inject.
Context {U : Types}.

(** [type injector struct { values map[reflect.Type]reflect.Value;
    parent Injector }].  The Go map is kept as an association list with
    the entries in the order a [range] over the map visits them: Go leaves
    that order unspecified and does not keep it from one [range] to the
    next: statements about a call of [Get] are made for every list, that
    is, for every order, and a statement that relates two calls is made
    only where the answer is found by lookups under a key, which no order
    enters.  The parent is nil or the address of another injector. *)
Record injector : Type := mkInjector {
  values : list (Type_ * Value);
  parent : option addr
}.

(** The state a call runs in: the injectors that have been allocated, and
    the memory that pointers point into. *)
Record world : Type := mkWorld {
  injectors : gmap addr injector;
  mem : gmap addr data
}.

(** A Go call returns a result in a new state, panics, or has not returned
    when the recursion budget of the model runs out. *)
Inductive result (A : Type) : Type :=
  | Ok (a : A) (w : world)
  | Panic (msg : string)
  | Timeout.
Arguments Ok {A} _ _.
Arguments Panic {A} _.
Arguments Timeout {A}.

Definition M (A : Type) : Type := world -> result A.

Definition ret {A} (a : A) : M A := fun w => Ok a w.
Definition panic {A} (msg : string) : M A := fun _ => Panic msg.
Definition timeout {A} : M A := fun _ => Timeout.
Definition bind {A B} (m : M A) (k : A -> M B) : M B :=
  fun w => match m w with
           | Ok a w' => k a w'
           | Panic msg => Panic msg
           | Timeout => Timeout
           end.

Notation "x <- c1 ;; c2" := (bind c1 (fun x => c2))
  (at level 100, c1 at next level, right associativity).
Notation "c1 ;;; c2" := (bind c1 (fun _ => c2))
  (at level 100, right associativity).

Definition nil_deref : string :=
  "runtime error: invalid memory address or nil pointer dereference".

(** Reading and writing the injector a method is called on. *)
Definition load (i : addr) : M injector :=
  fun w => match injectors w !! i with
           | Some inj => Ok inj w
           | None => Panic nil_deref
           end.

Definition store (i : addr) (inj : injector) : M unit :=
  fun w => Ok tt (mkWorld (<[i := inj]> (injectors w)) (mem w)).

(** *** Go map operations on the association list *)

(** [m[k]]: the stored value, or the zero Value when [k] is absent. *)
Fixpoint map_index (m : list (Type_ * Value)) (k : Type_) : Value :=
  match m with
  | [] => Zero
  | (k', v) :: rest => if decide (k' = k) then v else map_index rest k
  end.

(** [m[k] = v]: overwrite the entry of [k], or add one.  Where the new
    entry falls in a later [range] is not fixed in Go; here it is put
    last, and the statements about a scan after an assignment require
    every other entry to be passed over, so that the place does not
    matter. *)
Fixpoint map_assign (m : list (Type_ * Value)) (k : Type_) (v : Value)
  : list (Type_ * Value) :=
  match m with
  | [] => [(k, v)]
  | (k', v') :: rest =>
      if decide (k' = k) then (k, v) :: rest
      else (k', v') :: map_assign rest k v
  end.

(** *** The type mapper *)

(** [fmt.Errorf("Value not found for type %v", t)], the only error the
    package returns. *)
Inductive error : Type :=
  | ValueNotFound (t : rtype base).

(** The loop [for t.Kind() == reflect.Ptr { t = t.Elem() }], run for at
    most [fuel] iterations: the type it ends on, or [None] when it has not
    ended by then.  On a pointer type that is its own element type the
    loop of the source never ends. *)
Fixpoint elem_loop (fuel : nat) (t : rtype base) : option (rtype base) :=
  if bool_decide (Type_Kind t = Ptr) then
    match fuel with
    | O => None
    | S fuel' => elem_loop fuel' (Type_Elem t)
    end
  else Some t.

Definition InterfaceOf_msg : string :=
  "Called inject.InterfaceOf with a value that is not a pointer to an interface.".

(** [func InterfaceOf(value interface{}) reflect.Type] *)
Definition InterfaceOf (fuel : nat) (value : Value) : M (rtype base) :=
  match TypeOf value with
  | None => panic nil_deref
  | Some t =>
      match elem_loop fuel t with
      | None => timeout
      | Some t =>
          if bool_decide (Type_Kind t = Interface) then ret t
          else panic InterfaceOf_msg
      end
  end.

(** [func New() Injector] *)
Definition New : M addr :=
  fun w =>
    let i := fresh (dom (injectors w)) in
    Ok i (mkWorld (<[i := mkInjector [] None]> (injectors w)) (mem w)).

(** [func (i *injector) Map(val interface{}) TypeMapper] *)
Definition Map (i : addr) (val : Value) : M addr :=
  inj <- load i ;;
  store i (mkInjector (map_assign (values inj) (TypeOf val) (ValueOf val))
                      (parent inj)) ;;;
  ret i.

(** [func (i *injector) MapTo(val interface{}, ifacePtr interface{}) TypeMapper] *)
Definition MapTo (fuel : nat) (i : addr) (val ifacePtr : Value) : M addr :=
  inj <- load i ;;
  t <- InterfaceOf fuel ifacePtr ;;
  store i (mkInjector (map_assign (values inj) (Some t) (ValueOf val))
                      (parent inj)) ;;;
  ret i.

(** [func (i *injector) Set(typ reflect.Type, val reflect.Value) TypeMapper] *)
Definition Set_ (i : addr) (typ : Type_) (val : Value) : M addr :=
  inj <- load i ;;
  store i (mkInjector (map_assign (values inj) typ val) (parent inj)) ;;;
  ret i.

(** [func (i *injector) SetParent(parent Injector)] *)
Definition SetParent (i : addr) (p : option addr) : M unit :=
  inj <- load i ;;
  store i (mkInjector (values inj) p).

(** The loop of [Get] over the map:
    [for k, v := range i.values { if k.Implements(t) { val = v; break } }].
    A nil key makes the method call [k.Implements] a nil dereference. *)
Fixpoint range_implementor (vs : list (Type_ * Value)) (t : rtype base)
    (val : Value) : M Value :=
  match vs with
  | [] => ret val
  | (k, v) :: rest =>
      match k with
      | None => panic nil_deref
      | Some kt =>
          if Implements kt t then ret v else range_implementor rest t val
      end
  end.

(** [func (i *injector) Get(t reflect.Type) reflect.Value].  The recursion
    into the parent is bounded by [fuel]; a chain of parents that loops
    makes the Go call recurse without end. *)
Fixpoint Get (fuel : nat) (i : addr) (t : Type_) : M Value :=
  match fuel with
  | O => timeout
  | S fuel' =>
      inj <- load i ;;
      let val := map_index (values inj) t in
      if IsValid val then ret val
      else
        match t with
        | None => panic nil_deref
        | Some ty =>
            val <- (if bool_decide (Type_Kind ty = Interface)
                    then range_implementor (values inj) ty val
                    else ret val) ;;
            match parent inj with
            | Some p => if negb (IsValid val) then Get fuel' p t else ret val
            | None => ret val
            end
        end
  end.

(** *** Apply *)

(** [v.Elem()] for a pointer [v]: the variable it points to, with the
    address that makes it addressable, or the zero Value for a nil
    pointer. *)
Definition Value_Elem (m : gmap addr data) (v : Value) : Value * option addr :=
  match v with
  | Val t (DPtr (Some p)) =>
      match m !! p with
      | Some d => (Val (Type_Elem t) d, Some p)
      | None => (Zero, None)
      end
  | _ => (Zero, None)
  end.

(** The loop [for v.Kind() == reflect.Ptr { v = v.Elem() }], run for at
    most [fuel] iterations: the value it ends on and, when that was reached
    through a pointer, the address of the variable it views; [None] when
    the loop has not ended by then, as on a pointer that points to
    itself. *)
Fixpoint elem_value_loop (fuel : nat) (m : gmap addr data) (v : Value)
    (at_ : option addr) : option (Value * option addr) :=
  if bool_decide (Value_Kind v = Ptr) then
    match fuel with
    | O => None
    | S fuel' =>
        let (e, a) := Value_Elem m v in elem_value_loop fuel' m e a
    end
  else Some (v, at_).

Definition Indirect (fuel : nat) (m : gmap addr data) (v : Value)
  : option (Value * option addr) :=
  elem_value_loop fuel m v None.

(** [f.CanSet()] for the field [sf] of a struct viewed at [at_]: the struct
    is addressable and the field is exported. *)
Definition CanSet (at_ : option addr) (sf : StructField (rtype base)) : bool :=
  match at_ with
  | Some _ => String.eqb (PkgPath sf) ""
  | None => false
  end.

(** [structField.Tag == "inject" || structField.Tag.Get("inject") != ""] *)
Definition tagged (sf : StructField (rtype base)) : bool :=
  String.eqb (tag_raw (Tag sf)) "inject"
  || negb (String.eqb (Tag_Get (Tag sf) "inject") "").

Definition Set_msg : string :=
  "reflect.Set: value is not assignable to type".

(** [f.Set(v)] on field [i], of type [ft], of the struct viewed at [at_]:
    it panics when the field cannot be set or [v] is not assignable to the
    type of the field. *)
Definition Field_Set (at_ : option addr) (i : nat) (ft : rtype base)
    (v : Value) : M unit :=
  fun w =>
    match at_, v with
    | None, _ => Panic "reflect: reflect.Value.Set using unaddressable value"
    | Some _, Zero => Panic "reflect: call of reflect.Value.Set on zero Value"
    | Some p, Val vt _ =>
        if AssignableTo vt ft then
          match mem w !! p with
          | Some (DStruct fs) =>
              Ok tt (mkWorld (injectors w)
                             (<[p := DStruct (<[i := assignTo v ft]> fs)]> (mem w)))
          | _ => Panic nil_deref
          end
        else Panic Set_msg
    end.

(** The loop over the fields, from field [i] on. *)
Fixpoint Apply_fields (fuel : nat) (inj : addr) (at_ : option addr)
    (fields : list (StructField (rtype base))) (i : nat) : M (option error) :=
  match fields with
  | [] => ret None
  | structField :: rest =>
      if CanSet at_ structField && tagged structField then
        let ft := FieldType structField in
        v <- Get fuel inj (Some ft) ;;
        if negb (IsValid v) then ret (Some (ValueNotFound ft))
        else Field_Set at_ i ft v ;;; Apply_fields fuel inj at_ rest (S i)
      else Apply_fields fuel inj at_ rest (S i)
  end.

(** [func (inj *injector) Apply(val interface{}) error] *)
Definition Apply (fuel : nat) (inj : addr) (val : Value) : M (option error) :=
  fun w =>
    match Indirect fuel (mem w) (ValueOf val) with
    | None => Timeout
    | Some (v, at_) =>
        if bool_decide (Value_Kind v <> Struct) then Ok None w
        else Apply_fields fuel inj at_ (Value_Fields v) 0 w
    end.

(** *** Invoke *)

Section Program.

(** The bodies of the functions of the program, by index: a body takes the
    arguments of the call and runs in the state, which it may change. *)
Context (code : nat -> list Value -> M (list Value)).

Definition assignable_arg (x : Value) (t : rtype base) : bool :=
  match x with
  | Zero => false
  | Val xt _ => AssignableTo xt t
  end.

Fixpoint assignable_args (xs : list Value) (ts : list (rtype base)) : bool :=
  match xs, ts with
  | [], [] => true
  | x :: xs', t :: ts' => assignable_arg x t && assignable_args xs' ts'
  | _, _ => false
  end.

Definition Call_msg : string := "reflect: Call using value as wrong type".
Definition Call_count_msg : string :=
  "reflect: Call with wrong number of input arguments".
Definition Call_zero_msg : string := "reflect: Call using zero Value argument".
Definition Call_kind_msg : string := "reflect: call of reflect.Value.Call on non-func Value".

(** The variadic case of [reflect.Value.Call]: the arguments past the [n]
    fixed parameters are copied into a new slice of the last parameter's
    type, to whose element type each of them must be assignable. *)
Definition pack_variadic (ins : list (rtype base)) (n : nat)
    (args : list Value) : M (list Value) :=
  match ins !! n with
  | Some (TBase s) =>
      let elem := Elem s in
      let extra := drop n args in
      if forallb (fun x => assignable_arg x elem) extra
      then ret (take n args
                ++ [Val (TBase s) (DSlice (map (fun x => assignTo x elem) extra))])%list
      else panic Call_msg
  | _ => panic Call_msg
  end.

(** [reflect.ValueOf(f).Call(in)]: panics on a nil function, on a wrong
    number of arguments, on a zero Value argument and on an argument that
    is not assignable to its parameter; otherwise it runs the body of [f]
    once. *)
Definition Call (f : Value) (args : list Value) : M (list Value) :=
  match f with
  | Val (TBase b) (DFunc fn) =>
      if bool_decide (base_Kind b = Func) then
        match fn with
        | None => panic "reflect.Value.Call: call of nil function"
        | Some id =>
            let n := if IsVariadic b then length (In b) - 1
                     else length (In b) in
            if negb (if IsVariadic b then Nat.leb n (length args)
                     else Nat.eqb (length args) n)
            then panic Call_count_msg
            else if negb (forallb IsValid args) then panic Call_zero_msg
            else if negb (assignable_args (take n args) (take n (In b)))
            then panic Call_msg
            else
              args' <- (if IsVariadic b then pack_variadic (In b) n args
                        else ret args) ;;
              code id args'
        end
      else panic Call_kind_msg
  | _ => panic Call_kind_msg
  end.

(** The loop of [Invoke] over the parameters: the resolved arguments, or
    the error of the first parameter that has no value. *)
Fixpoint Invoke_in (fuel : nat) (inj : addr) (ins : list (rtype base))
  : M (error + list Value) :=
  match ins with
  | [] => ret (inr [])
  | argType :: rest =>
      val <- Get fuel inj (Some argType) ;;
      if negb (IsValid val) then ret (inl (ValueNotFound argType))
      else
        r <- Invoke_in fuel inj rest ;;
        ret (match r with
             | inl e => inl e
             | inr vals => inr (val :: vals)
             end)
  end.

(** [func (inj *injector) Invoke(f interface{}) ([]reflect.Value, error)] *)
Definition Invoke (fuel : nat) (inj : addr) (f : Value)
  : M (list Value * option error) :=
  match TypeOf f with
  | None => panic nil_deref
  | Some t =>
      if bool_decide (Type_Kind t = Func) then
        r <- Invoke_in fuel inj (Type_In t) ;;
        match r with
        | inl e => ret ([], Some e)
        | inr in_ => out <- Call (ValueOf f) in_ ;; ret (out, None)
        end
      else panic "reflect: NumIn of non-func type"
  end.

End Program.
End Inject.

Arguments Ok {U A} _ _.
Arguments Panic {U A} _.
Arguments Timeout {U A}.

(** ** Specification-level notions *)

Section Notions.
Context {U : Types}.

(** An entry whose key is a type that does not implement [ty]: the scan of
    [Get] passes over it. *)
Definition passed_over (ty : rtype base) (kv : Type_ * Value) : Prop :=
  exists k, kv.1 = Some k /\ Implements k ty = false.

(** What the scan of [Get] for the interface type [ty] takes from the
    entries [vs], visited in order: the value under the first key that
    implements [ty], or the zero Value when every key is passed over. *)
Inductive scans_to (ty : rtype base) (vs : list (Type_ * Value)) : Value -> Prop :=
  | scan_hit pre k v post :
      vs = (pre ++ (Some k, v) :: post)%list ->
      Forall (passed_over ty) pre ->
      Implements k ty = true ->
      scans_to ty vs v
  | scan_miss :
      Forall (passed_over ty) vs ->
      scans_to ty vs Zero.


(** The witness type [t] denotes the interface type [I] once its [k]
    pointer indirections are removed. *)
Inductive denotes_interface : Type_ -> rtype base -> nat -> Prop :=
  | denotes_here I :
      Type_Kind I = Interface -> denotes_interface (Some I) I 0
  | denotes_elem t I k :
      Type_Kind t = Ptr -> denotes_interface (Some (Type_Elem t)) I k ->
      denotes_interface (Some t) I (S k).

(** The pointer indirections of the witness type [t] end after [k] of
    them at the latest: the [k]th element type is not a pointer type.  The
    nil witness has none. *)
Definition ends_in (t : Type_) (k : nat) : Prop :=
  match t with
  | None => True
  | Some ty => Type_Kind (Nat.iter k Type_Elem ty) <> Ptr
  end.

(** The pointer indirections of the type [ty] never end: every type
    reached from it is a pointer type again. *)
Definition endless (ty : rtype base) : Prop :=
  forall k, Type_Kind (Nat.iter k Type_Elem ty) = Ptr.

(** A field that [Apply] injects into. *)
Definition injectable (at_ : option addr) (sf : StructField (rtype base)) : bool :=
  CanSet at_ sf && tagged sf.

(** The parent chain of the registry at [i] ends after [d] registries. *)
Inductive chain (w : world) : addr -> nat -> Prop :=
  | chain_root i inj :
      injectors w !! i = Some inj -> parent inj = None -> chain w i 1
  | chain_child i inj p d :
      injectors w !! i = Some inj -> parent inj = Some p ->
      chain w p d -> chain w i (S d).

(** The calls that write a registry write the receiver only. *)
Definition writes_only (i : addr) (w w' : world) : Prop :=
  mem w' = mem w /\ forall j, j <> i -> injectors w' !! j = injectors w !! j.

(** The registry at [i] has in [w'] the parent it has in [w] and holds the
    same value under every key; its entries may come in another order. *)
Definition same_map (i : addr) (w w' : world) : Prop :=
  exists inj inj',
    injectors w !! i = Some inj /\ injectors w' !! i = Some inj'
    /\ parent inj' = parent inj
    /\ forall t, map_index (values inj') t = map_index (values inj) t.

(** The registry at [j] is the one at [i] or one of its ancestors. *)
Inductive ancestor (w : world) : addr -> addr -> Prop :=
  | ancestor_self i : ancestor w i i
  | ancestor_parent i inj p j :
      injectors w !! i = Some inj -> parent inj = Some p ->
      ancestor w p j -> ancestor w i j.

(** The registry at [i] has nothing of its own for the type [ty]: no valid
    value under [ty] and, when [ty] is an interface type, a scan that ends
    with the zero Value. *)
Definition unresolved_at (ty : rtype base) (inj : injector) : Prop :=
  IsValid (map_index (values inj) (Some ty)) = false
  /\ (Type_Kind ty <> Interface \/ scans_to ty (values inj) Zero).

(** [j] is [k] parent links above [i], and none of the registries from [i]
    up to, but not including, [j] has anything of its own for [ty]. *)
Inductive passes_up (w : world) (ty : rtype base) : addr -> addr -> nat -> Prop :=
  | passes_here i : passes_up w ty i i 0
  | passes_step i inj p j k :
      injectors w !! i = Some inj -> unresolved_at ty inj ->
      parent inj = Some p -> passes_up w ty p j k ->
      passes_up w ty i j (S k).

End Notions.

Notation "x <- c1 ;; c2" := (bind c1 (fun x => c2))
  (at level 100, c1 at next level, right associativity).
Notation "c1 ;;; c2" := (bind c1 (fun _ => c2))
  (at level 100, right associativity).

(** ** A small program

    The types and functions of a Go program that uses the injector; the
    examples below run the injector on them.
<<
    type Reader interface { Read() string }
    type ReadCloser interface { Read() string; Close() }
    type File struct{}                      // func (File) Read() string
    type Service struct {
        In   Reader `inject`
        Port int    `inject`
        note string `inject`
        Name string
    }
    func handler(r Reader, n int) int       // body 0
    func stub(s string)                     // body 1, sets a flag
    func remap()                            // body 2, maps into an injector
    func sum(xs ...int)                     // body 3
    type ReaderRef *Reader
    type Loop *Loop
>> *)
Module Demo.

Inductive ty : Type :=
  | t_int | t_string | t_ints | t_Reader | t_ReadCloser | t_File | t_Service
  | t_handler | t_stub | t_remap | t_sum | t_ReaderRef | t_Loop.

#[export] Instance ty_eq_dec : EqDecision ty.
Proof. solve_decision. Defined.

Definition kind (b : ty) : Kind :=
  match b with
  | t_int => Int
  | t_string => String_
  | t_ints => Slice
  | t_Reader | t_ReadCloser => Interface
  | t_File | t_Service => Struct
  | t_handler | t_stub | t_remap | t_sum => Func
  | t_ReaderRef | t_Loop => Ptr
  end.

Definition inject_tag : StructTag := mkTag "inject" [].
Definition no_tag : StructTag := mkTag "" [].

Definition fields (b : ty) : list (StructField (rtype ty)) :=
  match b with
  | t_Service =>
      [ mkField "In" "" inject_tag (TBase t_Reader);
        mkField "Port" "" inject_tag (TBase t_int);
        mkField "note" "main" inject_tag (TBase t_string);
        mkField "Name" "" no_tag (TBase t_string) ]
  | _ => []
  end.

Definition ins (b : ty) : list (rtype ty) :=
  match b with
  | t_handler => [TBase t_Reader; TBase t_int]
  | t_stub => [TBase t_string]
  | t_sum => [TBase t_ints]
  | _ => []
  end.

(** [File] and [*File] have the method [Read], and so have the two
    interfaces; only [ReadCloser] has [Close]. *)
Definition implements (k u : rtype ty) : bool :=
  match u with
  | TBase t_Reader =>
      match k with
      | TBase t_File | TPtr (TBase t_File)
      | TBase t_Reader | TBase t_ReadCloser => true
      | _ => false
      end
  | TBase t_ReadCloser =>
      match k with
      | TBase t_ReadCloser => true
      | _ => false
      end
  | _ => false
  end.

(** [Elem] of the slice type and of the two defined pointer types; the
    injector asks for it behind a test of the kind only. *)
Definition elem (b : ty) : rtype ty :=
  match b with
  | t_ReaderRef => TBase t_Reader
  | t_Loop => TBase t_Loop
  | _ => TBase t_int
  end.

Definition assignable (x t : rtype ty) : bool :=
  bool_decide (x = t)
  || match t with
     | TBase b => bool_decide (kind b = Interface) && implements x t
     | TPtr _ => false
     end.

#[export] Instance types : Types := {|
  base := ty;
  base_Kind := kind;
  Fields := fields;
  In := ins;
  IsVariadic := fun b => bool_decide (b = t_sum);
  Elem := elem;
  Implements := implements;
  AssignableTo := assignable
|}.

Definition int_ (z : Z) : Value := Val (TBase t_int) (DInt z).
Definition str (s : string) : Value := Val (TBase t_string) (DString s).
Definition ints (zs : list Z) : Value := Val (TBase t_ints) (DSlice (map DInt zs)).
Definition file : Value := Val (TBase t_File) (DStruct []).
(** The nil pointers to [Reader] and to [ReadCloser], the witnesses
    [MapTo] is called with. *)
Definition Reader_ptr : Value := Val (TPtr (TBase t_Reader)) (DPtr None).
(** The nil pointers [ReaderRef(nil)] and [Loop(nil)]. *)
Definition ReaderRef_nil : Value := Val (TBase t_ReaderRef) (DPtr None).
Definition Loop_nil : Value := Val (TBase t_Loop) (DPtr None).

(** The address of the flag that [stub] sets. *)
Definition flag : addr := 7.

(** The bodies of [handler], [stub] and [remap]; [remap] is a closure over
    the injector at address 0 and maps the integer 1 into it. *)
Definition code (id : nat) (args : list Value) : M (list Value) :=
  match id with
  | 0 => ret [int_ 42]
  | 1 => fun w => Ok [] (mkWorld (injectors w) (<[flag := DBool true]> (mem w)))
  | 2 => Map 0 (int_ 1) ;;; ret []
  | _ => ret []
  end.

Definition handler : Value := Val (TBase t_handler) (DFunc (Some 0)).
Definition stub : Value := Val (TBase t_stub) (DFunc (Some 1)).
Definition remap : Value := Val (TBase t_remap) (DFunc (Some 2)).
Definition sum : Value := Val (TBase t_sum) (DFunc (Some 3)).

(** The empty state, and a state with a zeroed [Service] at address 1. *)
Definition w0 : world := mkWorld ∅ ∅.
Definition service_zero : data :=
  DStruct [DIface Zero; DInt 0; DString ""; DString ""].
Definition w_service : world := mkWorld ∅ {[ 1 := service_zero ]}.
Definition service_ptr : Value := Val (TPtr (TBase t_Service)) (DPtr (Some 1)).

(** One injector, at address 0, holding [vs]. *)
Definition single (vs : list (Type_ * Value)) : world :=
  mkWorld {[ 0 := mkInjector vs None ]} ∅.

(** A child at address 0 holding [vs] whose parent, at address 1, holds
    [ps]. *)
Definition child_parent (vs ps : list (Type_ * Value)) : world :=
  mkWorld {[ 0 := mkInjector vs (Some 1); 1 := mkInjector ps None ]} ∅.

(** One injector holding [vs], and a zeroed [Service] at address 1. *)
Definition with_service (vs : list (Type_ * Value)) : world :=
  mkWorld {[ 0 := mkInjector vs None ]} {[ 1 := service_zero ]}.

(** A registry at address 0 whose parent, at 1, has the registry at 2 as
    parent; only the last one maps [int]. *)
Definition three_levels : world :=
  mkWorld {[ 0 := mkInjector [] (Some 1);
             1 := mkInjector [] (Some 2);
             2 := mkInjector [(Some (TBase t_int), int_ 7)] None ]} ∅.


Definition Int_ : Type_ := Some (TBase t_int).
Definition Reader : Type_ := Some (TBase t_Reader).

End Demo.

(** ** Properties *)

Section Properties.
Context {U : Types}.
Implicit Types (w : world) (i p : addr) (t : Type_) (ty : rtype base).
Implicit Types (v val : Value) (inj : injector) (vs : list (Type_ * Value)).

Ltac run := unfold bind, load, store, ret, panic, timeout in *; simpl in *.

(** *** The association list *)

Lemma map_index_assign_eq vs t v : map_index (map_assign vs t v) t = v.
Proof.
  induction vs as [| [k x] vs IH]; simpl.
  - by rewrite decide_True.
  - destruct (decide (k = t)) as [-> | Hne]; simpl.
    + by rewrite decide_True.
    + by rewrite decide_False.
Qed.

Lemma map_index_assign_ne vs t t' v :
  t <> t' -> map_index (map_assign vs t v) t' = map_index vs t'.
Proof.
  intros Hne. induction vs as [| [k x] vs IH]; simpl.
  - by rewrite decide_False.
  - destruct (decide (k = t)) as [-> | Hkt]; simpl.
    + by rewrite !decide_False.
    + destruct (decide (k = t')); [done | exact IH].
Qed.

Lemma IsValid_Zero v : IsValid v = false <-> v = Zero.
Proof. destruct v; simpl; split; congruence. Qed.

(** *** The scan of [Get] *)

Lemma range_implementor_miss vs ty val w :
  Forall (passed_over ty) vs -> range_implementor vs ty val w = Ok val w.
Proof.
  induction 1 as [| [k x] vs [k' [Hk Himp]] _ IH]; simpl; [done |].
  simpl in Hk. subst k. by rewrite Himp.
Qed.

Lemma range_implementor_hit pre k v post ty val w :
  Forall (passed_over ty) pre -> Implements k ty = true ->
  range_implementor (pre ++ (Some k, v) :: post) ty val w = Ok v w.
Proof.
  intros Hpre Hk. induction Hpre as [| [k0 x] pre [k' [Hk0 Himp]] _ IH]; simpl.
  - by rewrite Hk.
  - simpl in Hk0. subst k0. by rewrite Himp.
Qed.

Lemma range_implementor_scans vs ty v w :
  scans_to ty vs v -> range_implementor vs ty Zero w = Ok v w.
Proof.
  destruct 1 as [pre k v post -> Hpre Hk | Hall].
  - by apply range_implementor_hit.
  - by apply range_implementor_miss.
Qed.

Lemma range_implementor_world vs ty val w v w' :
  range_implementor vs ty val w = Ok v w' -> w' = w.
Proof.
  induction vs as [| [[k |] x] vs IH]; simpl; run; try congruence.
  destruct (Implements k ty); [congruence | exact IH].
Qed.

(** *** [Get]: one step, the state, the fuel *)

Lemma Get_S n i t w inj :
  injectors w !! i = Some inj ->
  Get (S n) i t w =
    if IsValid (map_index (values inj) t) then Ok (map_index (values inj) t) w
    else match t with
         | None => Panic nil_deref
         | Some ty =>
             match (if bool_decide (Type_Kind ty = Interface)
                    then range_implementor (values inj) ty
                           (map_index (values inj) t) w
                    else Ok (map_index (values inj) t) w) with
             | Ok val w' =>
                 match parent inj with
                 | Some p => if negb (IsValid val) then Get n p t w'
                             else Ok val w'
                 | None => Ok val w'
                 end
             | Panic msg => Panic msg
             | Timeout => Timeout
             end
         end.
Proof.
  intros Hi. simpl. run. rewrite Hi.
  destruct (IsValid (map_index (values inj) t)); [done |].
  destruct t as [ty |]; [| done].
  destruct (bool_decide (Type_Kind ty = Interface)).
  - destruct (range_implementor _ _ _ _) as [x w1 | |]; [| done | done].
    destruct (parent inj); [by destruct (negb (IsValid x)) | done].
  - destruct (parent inj); [by destruct (negb _) | done].
Qed.

(** [Get] leaves the state as it found it. *)
Lemma Get_world n i t w v w' : Get n i t w = Ok v w' -> w' = w.
Proof.
  revert i w. induction n as [| n IH]; intros i w; [done |].
  simpl. run. destruct (injectors w !! i) as [inj |]; [| done].
  destruct (IsValid (map_index (values inj) t)); [congruence |].
  destruct t as [ty |]; [| done].
  destruct (bool_decide (Type_Kind ty = Interface)).
  - destruct (range_implementor _ _ _ _) as [x w1 | |] eqn:Hr; [| done | done].
    apply range_implementor_world in Hr. subst w1.
    destruct (parent inj) as [p |]; [| congruence].
    destruct (negb (IsValid x)); [apply IH | congruence].
  - destruct (parent inj) as [p |]; [| congruence].
    destruct (negb _); [apply IH | congruence].
Qed.

(** More fuel never changes an answer. *)
Lemma Get_fuel_S n i t w v w' :
  Get n i t w = Ok v w' -> Get (S n) i t w = Ok v w'.
Proof.
  revert i w. induction n as [| n IH]; intros i w; [done |].
  intros H. destruct (injectors w !! i) as [inj |] eqn:Hi.
  - rewrite (Get_S _ _ _ _ _ Hi) in H. rewrite (Get_S _ _ _ _ _ Hi).
    destruct (IsValid (map_index (values inj) t)); [done |].
    destruct t as [ty |]; [| done].
    destruct (if bool_decide (Type_Kind ty = Interface) then _ else _)
      as [x w1 | |]; [| done | done].
    destruct (parent inj) as [p |]; [| done].
    destruct (negb (IsValid x)); [by apply IH | done].
  - simpl in H. run. by rewrite Hi in H.
Qed.

Lemma Get_fuel_mono n m i t w v w' :
  n <= m -> Get n i t w = Ok v w' -> Get m i t w = Ok v w'.
Proof.
  induction 1 as [| m _ IH]; [done |].
  intros H. by apply Get_fuel_S, IH.
Qed.

(** With fuel for every registry of a parent chain that ends, [Get]
    returns or panics: it does not run out of fuel. *)
Lemma range_implementor_returns vs ty val w :
  range_implementor vs ty val w <> Timeout.
Proof.
  induction vs as [| [[k |] x] vs IH]; simpl; run; try done.
  by destruct (Implements k ty).
Qed.

Lemma Get_chain_returns w i d t : chain w i d -> Get d i t w <> Timeout.
Proof.
  induction 1 as [i inj Hi Hp | i inj p d Hi Hp _ IH];
    rewrite (Get_S _ _ _ _ _ Hi), Hp.
  - destruct (IsValid _); [done |]. destruct t as [ty |]; [| done].
    destruct (bool_decide _); [| done].
    pose proof (range_implementor_returns (values inj) ty
                  (map_index (values inj) (Some ty)) w).
    by destruct (range_implementor _ _ _ _).
  - destruct (IsValid _); [done |]. destruct t as [ty |]; [| done].
    destruct (bool_decide _).
    + pose proof (range_implementor_returns (values inj) ty
                    (map_index (values inj) (Some ty)) w).
      destruct (range_implementor _ _ _ _) as [x w1 | |] eqn:Hr; [| done | done].
      apply range_implementor_world in Hr. subst w1.
      by destruct (negb (IsValid x)).
    + by destruct (negb _).
Qed.

(** *** Resolution order of [Get] *)

Lemma Get_exact n i t w inj :
  injectors w !! i = Some inj ->
  IsValid (map_index (values inj) t) = true ->
  Get (S n) i t w = Ok (map_index (values inj) t) w.
Proof. intros Hi Hown. by rewrite (Get_S _ _ _ _ _ Hi), Hown. Qed.

Lemma Get_scan n i ty w inj v :
  injectors w !! i = Some inj ->
  IsValid (map_index (values inj) (Some ty)) = false ->
  Type_Kind ty = Interface ->
  scans_to ty (values inj) v -> IsValid v = true ->
  Get (S n) i (Some ty) w = Ok v w.
Proof.
  intros Hi Hown Hk Hscan Hv. rewrite (Get_S _ _ _ _ _ Hi), Hown.
  apply IsValid_Zero in Hown. rewrite Hown.
  rewrite bool_decide_eq_true_2 by done.
  rewrite (range_implementor_scans _ _ _ _ Hscan), Hv.
  by destruct (parent inj).
Qed.

Lemma Get_delegates n i ty w inj :
  injectors w !! i = Some inj ->
  IsValid (map_index (values inj) (Some ty)) = false ->
  Type_Kind ty <> Interface \/ scans_to ty (values inj) Zero ->
  match parent inj with
  | Some p => Get (S n) i (Some ty) w = Get n p (Some ty) w
  | None => Get (S n) i (Some ty) w = Ok Zero w
  end.
Proof.
  intros Hi Hown Hscan. rewrite (Get_S _ _ _ _ _ Hi), Hown.
  apply IsValid_Zero in Hown. rewrite Hown.
  destruct Hscan as [Hk | Hscan].
  - rewrite bool_decide_eq_false_2 by done. by destruct (parent inj).
  - destruct (bool_decide (Type_Kind ty = Interface)).
    + rewrite (range_implementor_scans _ _ _ _ Hscan). by destruct (parent inj).
    + by destruct (parent inj).
Qed.

(** C1 (amended).  For every registry and every type key [t], [Get]
    resolves in this order: (1) if the registry's own map holds a valid
    (non-zero) Value under exactly [t], that value is returned at once;
    (2) otherwise, for a non-nil [t], only when [t] is an interface type the
    own entries are scanned in order and the value under the first key
    whose type implements [t] is taken (no nil key before it), and returned
    when it is valid; (3) only if the value is still the zero Value and a
    parent is set, [Get] is applied to the parent with the same key and its
    answer is the answer; with no parent the zero Value (not found) is
    returned. *)
Theorem Get_resolution_order n i t w inj :
  injectors w !! i = Some inj ->
  (IsValid (map_index (values inj) t) = true ->
     Get (S n) i t w = Ok (map_index (values inj) t) w)
  /\ (IsValid (map_index (values inj) t) = false ->
      forall ty, t = Some ty ->
        (Type_Kind ty = Interface ->
           forall v, scans_to ty (values inj) v -> IsValid v = true ->
             Get (S n) i t w = Ok v w)
        /\ (Type_Kind ty <> Interface \/ scans_to ty (values inj) Zero ->
             match parent inj with
             | Some p => Get (S n) i t w = Get n p t w
             | None => Get (S n) i t w = Ok Zero w
             end)).
Proof.
  intros Hi. split; [by apply Get_exact |].
  intros Hown ty ->. split.
  - intros Hk v Hscan Hv. by eapply Get_scan.
  - intros Hscan. by apply Get_delegates.
Qed.

(** *** [Map] followed by [Get] *)

(** C6 (amended).  For every non-nil value [Val typ d], after [Map] of the
    value on a registry, [Get] of the value's type on that registry returns
    the value, and the value is valid (found). *)
Theorem Map_then_Get n i w inj typ d :
  injectors w !! i = Some inj ->
  exists w',
    Map i (Val typ d) w = Ok i w'
    /\ Get (S n) i (TypeOf (Val typ d)) w' = Ok (Val typ d) w'
    /\ IsValid (Val typ d) = true.
Proof.
  intros Hi. eexists. split; [| split]; [| | done].
  - unfold Map. run. rewrite Hi. reflexivity.
  - erewrite Get_S by (simpl; apply lookup_insert_eq).
    simpl. by rewrite map_index_assign_eq.
Qed.

(** *** The not-found signal *)




(** *** Interface satisfaction *)



(** *** Parent delegation *)

(** C7 (amended).  For every non-nil type [ty] and every child registry
    whose parent is set by [SetParent]: if the child holds no valid value
    under [ty] and, when [ty] is an interface type, every key of the child
    is a non-nil type that does not implement [ty], then whenever the
    parent resolves [ty] the child's [Get] returns the parent's value; and
    a valid value the child holds under [ty] takes precedence over whatever
    the parent holds. *)
Theorem Get_parent_delegation n c p ty w inj :
  injectors w !! c = Some inj ->
  exists w1,
    SetParent c (Some p) w = Ok tt w1
    /\ (IsValid (map_index (values inj) (Some ty)) = false ->
        (Type_Kind ty = Interface -> Forall (passed_over ty) (values inj)) ->
        forall v, IsValid v = true ->
          Get n p (Some ty) w1 = Ok v w1 ->
          Get (S n) c (Some ty) w1 = Ok v w1)
    /\ (forall typ d,
        map_index (values inj) (Some ty) = Val typ d ->
        Get (S n) c (Some ty) w1 = Ok (Val typ d) w1).
Proof.
  intros Hc. eexists. split; [| split].
  - unfold SetParent. run. rewrite Hc. reflexivity.
  - set (w1 := mkWorld _ _). intros Hown Hscan v Hv Hp.
    assert (Hc1 : injectors w1 !! c = Some (mkInjector (values inj) (Some p)))
      by apply lookup_insert_eq.
    pose proof (Get_delegates n c ty w1 _ Hc1 Hown) as H2.
    cbn [values parent] in H2. rewrite H2; [done |].
    destruct (decide (Type_Kind ty = Interface)) as [Hk | Hk]; [right | by left].
    apply scan_miss. by apply Hscan.
  - set (w1 := mkWorld _ _). intros typ d Hown.
    assert (Hc1 : injectors w1 !! c = Some (mkInjector (values inj) (Some p)))
      by apply lookup_insert_eq.
    rewrite (Get_exact _ _ _ _ _ Hc1); cbn [values]; by rewrite Hown.
Qed.

(** *** [MapTo] and its witness *)

Lemma elem_loop_S fuel ty :
  elem_loop (S fuel) ty =
    if bool_decide (Type_Kind ty = Ptr) then elem_loop fuel (Type_Elem ty)
    else Some ty.
Proof. done. Qed.

Lemma elem_loop_0 ty :
  elem_loop 0 ty = if bool_decide (Type_Kind ty = Ptr) then None else Some ty.
Proof. done. Qed.

(** The loop ends on a type that is not a pointer type. *)
Lemma elem_loop_not_Ptr fuel ty r :
  elem_loop fuel ty = Some r -> Type_Kind r <> Ptr.
Proof.
  revert ty. induction fuel as [| fuel IH]; intros ty.
  - rewrite elem_loop_0. case_bool_decide; [done | congruence].
  - rewrite elem_loop_S. case_bool_decide; [apply IH | congruence].
Qed.

(** More iterations do not change the result of a loop that has ended. *)
Lemma elem_loop_mono fuel fuel' ty r :
  elem_loop fuel ty = Some r -> fuel <= fuel' -> elem_loop fuel' ty = Some r.
Proof.
  revert fuel' ty. induction fuel as [| fuel IH]; intros fuel' ty.
  - rewrite elem_loop_0. case_bool_decide; [done |]. intros [= <-] _.
    destruct fuel'; [rewrite elem_loop_0 | rewrite elem_loop_S];
      by rewrite bool_decide_eq_false_2.
  - rewrite elem_loop_S. intros H Hle.
    destruct fuel' as [| fuel']; [lia |]. rewrite elem_loop_S.
    case_bool_decide; [| done]. apply IH; [done | lia].
Qed.

(** The loop ends within [k] iterations when the [k]th element type is not
    a pointer type. *)
Lemma elem_loop_ends fuel ty k :
  Type_Kind (Nat.iter k Type_Elem ty) <> Ptr -> k <= fuel ->
  exists r, elem_loop fuel ty = Some r.
Proof.
  revert ty k. induction fuel as [| fuel IH]; intros ty k Hk Hle.
  - assert (k = 0) as -> by lia. simpl in Hk.
    rewrite elem_loop_0, bool_decide_eq_false_2 by done. by eauto.
  - rewrite elem_loop_S. case_bool_decide as Hp; [| by eauto].
    destruct k as [| k]; [done |].
    rewrite Nat.iter_succ_r in Hk. apply (IH _ k); [done | lia].
Qed.

(** On a type whose pointer indirections never end the loop does not end. *)
Lemma elem_loop_endless fuel ty : endless ty -> elem_loop fuel ty = None.
Proof.
  revert ty. induction fuel as [| fuel IH]; intros ty Hty.
  - rewrite elem_loop_0, bool_decide_eq_true_2; [done | apply (Hty 0)].
  - rewrite elem_loop_S, bool_decide_eq_true_2 by apply (Hty 0).
    apply IH. intros k. rewrite <- Nat.iter_succ_r. apply Hty.
Qed.

Lemma MapTo_endless fuel i val ty d w inj :
  injectors w !! i = Some inj -> endless ty ->
  MapTo fuel i val (Val ty d) w = Timeout.
Proof.
  intros Hi Hty. unfold MapTo, InterfaceOf, bind, load. rewrite Hi.
  cbn [TypeOf]. by rewrite elem_loop_endless.
Qed.

Lemma denotes_interface_Kind t I k :
  denotes_interface t I k -> Type_Kind I = Interface.
Proof. by induction 1. Qed.

Lemma denotes_interface_elem_loop ty I k fuel :
  denotes_interface (Some ty) I k -> k <= fuel -> elem_loop fuel ty = Some I.
Proof.
  remember (Some ty) as t eqn:Ht. intros H. revert ty Ht fuel.
  induction H as [I HI | t I k Hp _ IH]; intros ty [= <-] fuel Hle.
  - destruct fuel; [rewrite elem_loop_0 | rewrite elem_loop_S];
      rewrite bool_decide_eq_false_2; congruence.
  - destruct fuel as [| fuel]; [lia |].
    rewrite elem_loop_S, bool_decide_eq_true_2 by done.
    apply IH; [done | lia].
Qed.

Lemma elem_loop_denotes fuel ty I :
  elem_loop fuel ty = Some I -> Type_Kind I = Interface ->
  exists k, k <= fuel /\ denotes_interface (Some ty) I k.
Proof.
  revert ty. induction fuel as [| fuel IH]; intros ty.
  - rewrite elem_loop_0. case_bool_decide; [done |]. intros [= <-] HI.
    exists 0. split; [done | by constructor].
  - rewrite elem_loop_S. case_bool_decide as Hp.
    + intros H HI. destruct (IH _ H HI) as (k & Hle & Hd).
      exists (S k). split; [lia | by constructor].
    + intros [= <-] HI. exists 0. split; [lia | by constructor].
Qed.

(** What a witness denotes is what the loop ends on. *)
Lemma denotes_interface_loop_result fuel ty I k r :
  denotes_interface (Some ty) I k -> elem_loop fuel ty = Some r -> r = I.
Proof.
  intros Hd Hr.
  apply (denotes_interface_elem_loop _ _ _ (Nat.max k fuel)) in Hd; [| lia].
  apply (elem_loop_mono _ (Nat.max k fuel)) in Hr; [| lia]. congruence.
Qed.

(** C8 (amended).  For every witness passed to [MapTo] whose pointer
    indirections end, after [k] of them say: the call panics if and only
    if the witness, after removing every pointer indirection, does not
    denote an interface type.  When the witness denotes the interface type
    [I], [MapTo] stores the value under the key [I] and returns the
    registry.  On a witness whose pointer indirections never end the call
    neither panics nor returns. *)
Theorem MapTo_panics_iff fuel i w inj val ifacePtr :
  injectors w !! i = Some inj ->
  (forall k, ends_in (TypeOf ifacePtr) k -> k <= fuel ->
     ((exists msg, MapTo fuel i val ifacePtr w = Panic msg) <->
      ~ (exists I j, denotes_interface (TypeOf ifacePtr) I j)))
  /\ (forall I k, denotes_interface (TypeOf ifacePtr) I k -> k <= fuel ->
       MapTo fuel i val ifacePtr w =
         Ok i (mkWorld
                 (<[i := mkInjector (map_assign (values inj) (Some I) val)
                                    (parent inj)]> (injectors w))
                 (mem w))
       /\ map_index (map_assign (values inj) (Some I) val) (Some I) = val)
  /\ (forall ty, TypeOf ifacePtr = Some ty -> endless ty ->
       MapTo fuel i val ifacePtr w = Timeout).
Proof.
  intros Hi. unfold MapTo, InterfaceOf. run. rewrite Hi.
  destruct ifacePtr as [| ty d]; cbn [TypeOf].
  - split; [| split].
    + intros k _ _. split; [| by eauto]. intros _ (I & j & HI). inversion HI.
    + intros I k HI. inversion HI.
    + done.
  - split; [| split].
    + intros k Hk Hle. destruct (elem_loop_ends fuel ty k Hk Hle) as [r Hr].
      rewrite Hr. destruct (decide (Type_Kind r = Interface)) as [HI | HI].
      * rewrite bool_decide_eq_true_2 by done.
        split; [by intros [msg ?] |]. intros Hno. exfalso. apply Hno.
        destruct (elem_loop_denotes _ _ _ Hr HI) as (j & _ & Hd). by eauto.
      * rewrite bool_decide_eq_false_2 by done. split; [| by eauto].
        intros _ (I & j & Hd).
        rewrite (denotes_interface_loop_result _ _ _ _ _ Hd Hr) in HI.
        by apply denotes_interface_Kind in Hd.
    + intros I k Hd Hle.
      rewrite (denotes_interface_elem_loop _ _ _ _ Hd Hle).
      rewrite bool_decide_eq_true_2 by (by apply denotes_interface_Kind in Hd).
      split; [done | apply map_index_assign_eq].
    + intros ty' [= <-] Hty. by rewrite elem_loop_endless.
Qed.

(** *** [Apply] on a target that is not a struct *)

Lemma elem_value_loop_S fuel m v at_ :
  elem_value_loop (S fuel) m v at_ =
    if bool_decide (Value_Kind v = Ptr)
    then elem_value_loop fuel m (Value_Elem m v).1 (Value_Elem m v).2
    else Some (v, at_).
Proof. simpl. by destruct (Value_Elem m v). Qed.

Lemma elem_value_loop_0 m v at_ :
  elem_value_loop 0 m v at_ =
    if bool_decide (Value_Kind v = Ptr) then None else Some (v, at_).
Proof. done. Qed.




(** *** What the calls leave unchanged *)

Lemma range_implementor_any vs ty val w w0 :
  range_implementor vs ty val w =
    match range_implementor vs ty val w0 with
    | Ok v _ => Ok v w
    | Panic msg => Panic msg
    | Timeout => Timeout
    end.
Proof.
  induction vs as [| [[k |] x] vs IH]; simpl; run; try done.
  destruct (Implements k ty); [done | exact IH].
Qed.

(** [Get] reads the registries only. *)
Lemma Get_same_injectors n i t w1 w2 v :
  injectors w1 = injectors w2 ->
  Get n i t w1 = Ok v w1 -> Get n i t w2 = Ok v w2.
Proof.
  intros Hinj. revert i. induction n as [| n IH]; intros i; [done |].
  destruct (injectors w1 !! i) as [inj |] eqn:Hi.
  - assert (Hi2 : injectors w2 !! i = Some inj) by (by rewrite <- Hinj).
    rewrite (Get_S _ _ _ _ _ Hi), (Get_S _ _ _ _ _ Hi2).
    destruct (IsValid (map_index (values inj) t)); [congruence |].
    destruct t as [ty |]; [| done].
    destruct (bool_decide (Type_Kind ty = Interface)).
    + rewrite (range_implementor_any _ _ _ w2 w1).
      destruct (range_implementor _ _ _ w1) as [x wx | |] eqn:Hr; [| done | done].
      apply range_implementor_world in Hr. subst wx.
      destruct (parent inj) as [p |]; [| congruence].
      destruct (negb (IsValid x)); [apply IH | congruence].
    + destruct (parent inj) as [p |]; [| congruence].
      destruct (negb _); [apply IH | congruence].
  - simpl. run. by rewrite Hi.
Qed.

Lemma Field_Set_injectors at_ j ty v w w' :
  Field_Set at_ j ty v w = Ok tt w' -> injectors w' = injectors w.
Proof.
  unfold Field_Set. destruct at_ as [p |]; [| done].
  destruct v as [| vt d]; [done |].
  destruct (AssignableTo vt ty); [| done].
  destruct (mem w !! p) as [[| | | | | | | fs |] |]; try done.
  by intros [= <-].
Qed.

Lemma Apply_fields_injectors fuel i at_ fields j w e w' :
  Apply_fields fuel i at_ fields j w = Ok e w' -> injectors w' = injectors w.
Proof.
  revert j w. induction fields as [| sf rest IH]; intros j w; simpl.
  - run. by intros [= _ <-].
  - destruct (CanSet at_ sf && tagged sf); [| apply IH].
    run. destruct (Get fuel i _ w) as [v w1 | |] eqn:HG; [| done | done].
    apply Get_world in HG. subst w1.
    destruct (negb (IsValid v)); [by intros [= _ <-] |].
    destruct (Field_Set at_ j (FieldType sf) v w) as [[] w2 | |] eqn:HS;
      [| done | done].
    apply Field_Set_injectors in HS. intros H%IH. congruence.
Qed.

Lemma Invoke_in_world fuel i ins w r w' :
  Invoke_in fuel i ins w = Ok r w' -> w' = w.
Proof.
  revert r. induction ins as [| ty rest IH]; intros r; simpl; run.
  - by intros [= _ <-].
  - destruct (Get fuel i (Some ty) w) as [v w1 | |] eqn:HG; [| done | done].
    apply Get_world in HG. subst w1.
    destruct (negb (IsValid v)); [by intros [= _ <-] |].
    destruct (Invoke_in fuel i rest w) as [r1 w1 | |]; [| done | done].
    intros [= _ <-]. by eapply IH.
Qed.

Lemma Call_runs_code code f args w out w' :
  Call code f args w = Ok out w' ->
  exists id args', code id args' w = Ok out w'.
Proof.
  unfold Call. destruct f as [| [b | e] d]; try done.
  destruct d as [| | | | | [id |] | | |]; try done; run;
    destruct (bool_decide (base_Kind b = Func)); try done.
  destruct (negb (if IsVariadic b then _ else _)); [done |].
  destruct (negb (forallb IsValid args)); [done |].
  destruct (negb (assignable_args _ _)); [done |].
  destruct (IsVariadic b); [| by eauto].
  unfold pack_variadic. run.
  destruct (In b !! _) as [[s | e] |]; try done.
  destruct (forallb _ _); [by eauto | done].
Qed.

Lemma store_writes_only i inj w : writes_only i w (mkWorld (<[i := inj]> (injectors w)) (mem w)).
Proof. split; [done |]. intros j Hj. simpl. by rewrite lookup_insert_ne. Qed.

(** C10 (amended).  [Get] and [Apply] never change a registry: after [Get]
    the whole state is as before, and after [Apply] the map and the parent
    of every registry are as before.  [Invoke] itself writes no registry:
    when a dependency is missing the state is unchanged, and otherwise the
    state after [Invoke] is the state in which the body of the invoked
    function ended, so that the registries are unchanged whenever that body
    changes none.  [Map], [MapTo], [Set] and [SetParent] write the map or
    the parent of the registry they are called on, and nothing else. *)
Theorem registry_frame code n i t val f typ (par : option addr) w :
  (forall v w', Get n i t w = Ok v w' -> w' = w)
  /\ (forall e w', Apply n i val w = Ok e w' -> injectors w' = injectors w)
  /\ (forall r w', Invoke code n i f w = Ok r w' ->
        (exists e, r = ([], Some e) /\ w' = w)
        \/ (exists id args out, code id args w = Ok out w' /\ r = (out, None)))
  /\ (forall r w', Map i val w = Ok r w' \/ MapTo n i val f w = Ok r w'
                   \/ Set_ i typ val w = Ok r w' -> writes_only i w w')
  /\ (forall w', SetParent i par w = Ok tt w' -> writes_only i w w').
Proof.
  split; [| split; [| split; [| split]]].
  - intros v w'. apply Get_world.
  - intros e w'. unfold Apply.
    destruct (Indirect n (mem w) (ValueOf val)) as [[v at_] |]; [| done].
    destruct (bool_decide (Value_Kind v <> Struct)); [by intros [= _ <-] |].
    apply Apply_fields_injectors.
  - intros r w'. unfold Invoke.
    destruct (TypeOf f) as [tf |]; [| done].
    destruct (bool_decide (Type_Kind tf = Func)); [| done].
    run. destruct (Invoke_in n i (Type_In tf) w) as [[e | args] w1 | |] eqn:Hin;
      [| | done | done]; apply Invoke_in_world in Hin; subst w1.
    + intros [= <- <-]. left. by eauto.
    + destruct (Call code (ValueOf f) args w) as [out w1 | |] eqn:HC;
        [| done | done].
      intros [= <- <-]. right.
      destruct (Call_runs_code _ _ _ _ _ _ HC) as (id & args' & Hcode).
      by eauto.
  - intros r w'. unfold Map, MapTo, Set_, InterfaceOf. run.
    destruct (injectors w !! i) as [inj |].
    + intros [H | [H | H]].
      * injection H as _ <-. apply store_writes_only.
      * destruct (TypeOf f) as [ty |]; [| done].
        destruct (elem_loop n ty) as [r' |]; [| done].
        destruct (bool_decide _); [| done].
        injection H as _ <-. apply store_writes_only.
      * injection H as _ <-. apply store_writes_only.
    + by intros [H | [H | H]].
  - intros w'. unfold SetParent. run.
    destruct (injectors w !! i) as [inj |]; [| done].
    intros [= <-]. apply store_writes_only.
Qed.

(** *** [Invoke] *)

Lemma Invoke_in_missing fuel i pre ty post w :
  Forall (fun q => exists v, IsValid v = true
                             /\ Get fuel i (Some q) w = Ok v w) pre ->
  Get fuel i (Some ty) w = Ok Zero w ->
  Invoke_in fuel i (pre ++ ty :: post) w = Ok (inl (ValueNotFound ty)) w.
Proof.
  intros Hpre Hty. induction Hpre as [| q pre (v & Hv & Hq) _ IH]; simpl; run.
  - by rewrite Hty.
  - rewrite Hq, Hv. simpl. by rewrite IH.
Qed.

Lemma Invoke_in_resolved fuel i ins args w :
  Forall2 (fun ty v => Get fuel i (Some ty) w = Ok v w
                       /\ assignable_arg v ty = true) ins args ->
  Invoke_in fuel i ins w = Ok (inr args) w.
Proof.
  induction 1 as [| ty v ins args [Hty Hv] _ IH]; simpl; run; [done |].
  rewrite Hty. destruct v as [| vt d]; [done |]. simpl. by rewrite IH.
Qed.

Lemma assignable_args_Forall2 ins args :
  Forall2 (fun ty v => assignable_arg v ty = true) ins args ->
  assignable_args args ins = true /\ forallb IsValid args = true.
Proof.
  induction 1 as [| ty v ins args Hv _ [IH1 IH2]]; simpl; [done |].
  rewrite Hv, IH1, IH2. by destruct v.
Qed.

(** C4 (amended).  For every function [f]: if [Get] reports not-found for
    one of the declared parameter types and returns a valid value for each
    parameter before it, [Invoke] returns the error of that type, whatever
    the body of [f] is, and the state is unchanged (the body has not run);
    if [f] is a non-nil, non-variadic function and every parameter type
    resolves to a value assignable to it, the body of [f] is run exactly
    once, from the state [Invoke] was called in, on the resolved arguments
    in declaration order, and [Invoke] returns what the body returned, in
    order, with no error. *)
Theorem Invoke_all_or_nothing fuel i b d w :
  base_Kind b = Func ->
  (forall code pre ty post,
     In b = (pre ++ ty :: post)%list ->
     Forall (fun q => exists v, IsValid v = true
                                /\ Get fuel i (Some q) w = Ok v w) pre ->
     Get fuel i (Some ty) w = Ok Zero w ->
     Invoke code fuel i (Val (TBase b) d) w
       = Ok ([], Some (ValueNotFound ty)) w)
  /\ (forall code id args,
       d = DFunc (Some id) ->
       IsVariadic b = false ->
       Forall2 (fun ty v => Get fuel i (Some ty) w = Ok v w
                            /\ assignable_arg v ty = true) (In b) args ->
       Invoke code fuel i (Val (TBase b) d) w
         = match code id args w with
           | Ok out w' => Ok (out, None) w'
           | Panic msg => Panic msg
           | Timeout => Timeout
           end).
Proof.
  intros Hb. unfold Invoke. cbn [TypeOf Type_Kind Type_In].
  rewrite bool_decide_eq_true_2 by done. split.
  - intros code pre ty post Hins Hpre Hty. run. rewrite Hins.
    by rewrite (Invoke_in_missing _ _ _ _ _ _ Hpre Hty).
  - intros code id args -> Hvar Hargs. run.
    rewrite (Invoke_in_resolved _ _ _ _ _ Hargs).
    unfold Call, ValueOf. run.
    rewrite bool_decide_eq_true_2 by done. rewrite Hvar.
    assert (Hlen : length args = length (In b))
      by (symmetry; eapply Forall2_length; exact Hargs).
    destruct (assignable_args_Forall2 (In b) args) as [Ha Hv].
    { eapply Forall2_impl; [exact Hargs |]. by intros ty v [_ ?]. }
    rewrite Hv, Hlen, Nat.eqb_refl. simpl.
    rewrite (take_ge args) by lia. rewrite (take_ge (In b)) by lia.
    by rewrite Ha.
Qed.

(** *** [Apply] with a missing dependency *)

Lemma Apply_fields_cons fuel i at_ sf rest j :
  Apply_fields fuel i at_ (sf :: rest) j =
    if injectable at_ sf then
      v <- Get fuel i (Some (FieldType sf)) ;;
      if negb (IsValid v) then ret (Some (ValueNotFound (FieldType sf)))
      else Field_Set at_ j (FieldType sf) v ;;;
           Apply_fields fuel i at_ rest (S j)
    else Apply_fields fuel i at_ rest (S j).
Proof. reflexivity. Qed.

(** The loop of [Apply] from field [j0] on, when the fields [pre] resolve
    and the field after them does not: the struct at [p], which held [fs],
    ends up holding [fs']. *)
Lemma Apply_fields_missing fuel i p w pre sf post :
  injectable (Some p) sf = true ->
  Forall (fun f => injectable (Some p) f = true ->
                   exists v, Get fuel i (Some (FieldType f)) w = Ok v w
                             /\ assignable_arg v (FieldType f) = true) pre ->
  Get fuel i (Some (FieldType sf)) w = Ok Zero w ->
  forall j0 fs w1,
    injectors w1 = injectors w ->
    mem w1 !! p = Some (DStruct fs) ->
    exists fs',
      Apply_fields fuel i (Some p) (pre ++ sf :: post) j0 w1
        = Ok (Some (ValueNotFound (FieldType sf)))
             (mkWorld (injectors w1) (<[p := DStruct fs']> (mem w1)))
      /\ length fs' = length fs
      /\ (forall j f, pre !! j = Some f -> injectable (Some p) f = true ->
            j0 + j < length fs ->
            exists v, Get fuel i (Some (FieldType f)) w = Ok v w
                      /\ fs' !! (j0 + j) = Some (assignTo v (FieldType f)))
      /\ (forall k, k < j0 -> fs' !! k = fs !! k)
      /\ (forall j, (forall f, pre !! j = Some f ->
                                injectable (Some p) f = false) ->
            fs' !! (j0 + j) = fs !! (j0 + j)).
Proof.
  intros Hsf Hpre Hmiss.
  induction Hpre as [| f pre Hf _ IH]; intros j0 fs w1 Hinj Hmem.
  - exists fs. split; [| by repeat split; intros; try discriminate].
    rewrite app_nil_l, Apply_fields_cons, Hsf. unfold bind, ret.
    rewrite (Get_same_injectors _ _ _ w w1 Zero) by done. simpl.
    rewrite insert_id by done. by destruct w1.
  - rewrite <- app_comm_cons, Apply_fields_cons.
    destruct (injectable (Some p) f) eqn:Hinjf.
    + destruct (Hf eq_refl) as (v & Hv & Ha). unfold bind, ret.
      rewrite (Get_same_injectors _ _ _ w w1 v) by done.
      destruct v as [| vt d]; [done |]. simpl in Ha.
      cbn [IsValid negb]. unfold Field_Set. rewrite Ha, Hmem.
      set (fs1 := <[j0 := assignTo (Val vt d) (FieldType f)]> fs).
      set (w2 := mkWorld (injectors w1) (<[p := DStruct fs1]> (mem w1))).
      destruct (IH (S j0) fs1 w2) as (fs' & Hrun & Hlen & Hset & Hlow & Hkeep);
        [done | apply lookup_insert_eq |].
      exists fs'. fold w2. rewrite Hrun. subst w2. cbn [injectors mem].
      rewrite insert_insert_eq.
      assert (Hlen1 : length fs1 = length fs) by apply length_insert.
      split; [done |]. split; [congruence |]. split; [| split].
      * intros [| j] g Hg Hgi Hj; simpl in Hg.
        -- injection Hg as <-. exists (Val vt d). split; [done |].
           rewrite Nat.add_0_r in Hj |- *. rewrite Hlow by lia.
           by apply list_lookup_insert_eq.
        -- destruct (Hset j g Hg Hgi) as (x & Hx & Hfx); [lia |].
           exists x. split; [done |].
           by replace (j0 + S j) with (S j0 + j) by lia.
      * intros k Hk. rewrite Hlow by lia.
        apply list_lookup_insert_ne. lia.
      * intros [| j] Hj.
        -- specialize (Hj f eq_refl). congruence.
        -- replace (j0 + S j) with (S j0 + j) by lia.
           rewrite Hkeep by (intros g Hg; by apply (Hj g)).
           apply list_lookup_insert_ne. lia.
    + destruct (IH (S j0) fs w1) as (fs' & Hrun & Hlen & Hset & Hlow & Hkeep);
        [done | done |].
      exists fs'. split; [done |]. split; [done |]. split; [| split].
      * intros [| j] g Hg Hgi Hj; simpl in Hg.
        -- injection Hg as <-. congruence.
        -- destruct (Hset j g Hg Hgi) as (x & Hx & Hfx); [lia |].
           exists x. split; [done |].
           by replace (j0 + S j) with (S j0 + j) by lia.
      * intros k Hk. apply Hlow. lia.
      * intros [| j] Hj.
        -- rewrite Nat.add_0_r. apply Hlow. lia.
        -- replace (j0 + S j) with (S j0 + j) by lia.
           apply Hkeep. intros g Hg. by apply (Hj g).
Qed.

(** C5 (amended).  For every struct target reached through a pointer that
    has an injectable field whose declared type [Get] reports not-found,
    where every injectable field before it resolves to a value assignable
    to its type (so that this field is the first one without a value),
    [Apply] returns the error naming that field's type, and nothing is
    rolled back: every injectable field before the failing one holds the
    resolved value that [Apply] assigned to it, the other fields are as
    they were, and no registry changed. *)
Theorem Apply_missing_dependency fuel i val w b d p fs pre sf post :
  Indirect fuel (mem w) (ValueOf val) = Some (Val (TBase b) d, Some p) ->
  base_Kind b = Struct ->
  mem w !! p = Some (DStruct fs) ->
  length fs = length (Fields b) ->
  Fields b = (pre ++ sf :: post)%list ->
  injectable (Some p) sf = true ->
  Forall (fun f => injectable (Some p) f = true ->
                   exists v, Get fuel i (Some (FieldType f)) w = Ok v w
                             /\ assignable_arg v (FieldType f) = true) pre ->
  Get fuel i (Some (FieldType sf)) w = Ok Zero w ->
  exists fs',
    Apply fuel i val w
      = Ok (Some (ValueNotFound (FieldType sf)))
           (mkWorld (injectors w) (<[p := DStruct fs']> (mem w)))
    /\ length fs' = length fs
    /\ (forall j f, pre !! j = Some f -> injectable (Some p) f = true ->
          exists v, Get fuel i (Some (FieldType f)) w = Ok v w
                    /\ fs' !! j = Some (assignTo v (FieldType f)))
    /\ (forall j, (forall f, pre !! j = Some f ->
                              injectable (Some p) f = false) ->
          fs' !! j = fs !! j).
Proof.
  intros Hind Hb Hmem Hlen Hfields Hsf Hpre Hmiss.
  destruct (Apply_fields_missing fuel i p w pre sf post Hsf Hpre Hmiss
              0 fs w eq_refl Hmem)
    as (fs' & Hrun & Hlen' & Hset & _ & Hkeep).
  exists fs'. split; [| split; [done | split]].
  - unfold Apply. rewrite Hind. cbn [Value_Kind Type_Kind Value_Fields Type_Fields].
    rewrite bool_decide_eq_false_2 by (intros Hne; by apply Hne).
    by rewrite Hfields.
  - intros j f Hj Hf. apply (Hset j f Hj Hf). simpl.
    apply lookup_lt_Some in Hj. rewrite Hlen, Hfields, length_app. lia.
  - intros j Hj. by apply (Hkeep j).
Qed.

(** ** Further properties of the package *)

(** *** [New] *)

(** X1.  [New] allocates a registry at an address that held none, with an
    empty map and no parent, and leaves every other registry and the
    memory as they were; on the new registry [Get] reports not-found for
    every type. *)
Theorem New_fresh w :
  exists i w',
    New w = Ok i w'
    /\ injectors w !! i = None
    /\ injectors w' !! i = Some (mkInjector [] None)
    /\ mem w' = mem w
    /\ (forall j, j <> i -> injectors w' !! j = injectors w !! j)
    /\ (forall n ty, Get (S n) i (Some ty) w' = Ok Zero w').
Proof.
  eexists _, _. split; [reflexivity |].
  set (i := fresh (dom (injectors w))).
  assert (Hfresh : injectors w !! i = None)
    by (apply not_elem_of_dom, is_fresh).
  split; [done |]. split; [apply lookup_insert_eq |]. split; [done |]. split.
  - intros j Hj. simpl. by rewrite lookup_insert_ne.
  - intros n ty. erewrite Get_S by apply lookup_insert_eq. simpl.
    by destruct (bool_decide (Type_Kind ty = Interface)).
Qed.

(** *** [Map], [MapTo], [Set]: last write wins, other keys are kept *)

Lemma map_assign_twice vs t v1 v2 :
  map_assign (map_assign vs t v1) t v2 = map_assign vs t v2.
Proof.
  induction vs as [| [k x] vs IH]; simpl.
  - by rewrite decide_True.
  - destruct (decide (k = t)) as [-> | Hne]; simpl.
    + by rewrite decide_True.
    + rewrite decide_False by done. by rewrite IH.
Qed.

(** X2.  Mapping a second value of the same type overwrites the first: the
    registry is left as if only the second [Map] had been made, and [Get]
    of the type returns the second value. *)
Theorem Map_overwrites n i w inj typ d1 d2 :
  injectors w !! i = Some inj ->
  exists w1 w2,
    Map i (Val typ d1) w = Ok i w1
    /\ Map i (Val typ d2) w1 = Ok i w2
    /\ Map i (Val typ d2) w = Ok i w2
    /\ Get (S n) i (Some typ) w2 = Ok (Val typ d2) w2.
Proof.
  intros Hi. eexists _, _. split; [| split; [| split]].
  - unfold Map. run. rewrite Hi. reflexivity.
  - unfold Map. run. rewrite lookup_insert_eq. reflexivity.
  - unfold Map. run. rewrite Hi. simpl.
    by rewrite map_assign_twice, insert_insert_eq.
  - erewrite Get_S by (simpl; apply lookup_insert_eq).
    simpl. by rewrite map_index_assign_eq.
Qed.

(** X3.  [Set] under a key [k] does not change what [Get] answers for
    another type [ty], on any registry, in the cases where [Get] answers
    from lookups under [ty] alone and ranges over no map: when [ty] is not
    an interface type, and when the registry asked maps [ty] itself to a
    valid value. *)
Theorem Set_keeps_other_answers i k v w w' :
  Set_ i k v w = Ok i w' ->
  forall j ty,
    Some ty <> k ->
    (Type_Kind ty <> Interface ->
     forall n,
       Get n j (Some ty) w'
         = match Get n j (Some ty) w with
           | Ok x _ => Ok x w'
           | Panic msg => Panic msg
           | Timeout => Timeout
           end)
    /\ (forall injj n,
          injectors w !! j = Some injj ->
          IsValid (map_index (values injj) (Some ty)) = true ->
          Get (S n) j (Some ty) w = Ok (map_index (values injj) (Some ty)) w
          /\ Get (S n) j (Some ty) w' = Ok (map_index (values injj) (Some ty)) w').
Proof.
  intros Hset j ty Hne. unfold Set_, bind, load, store, ret in Hset.
  destruct (injectors w !! i) as [inj |] eqn:Hi; [| done].
  injection Hset as <-.
  set (w' := mkWorld _ _) in *.
  assert (Hsame : forall j vs' par,
            (j = i -> vs' = map_assign (values inj) k v /\ par = parent inj)
            -> (j <> i -> injectors w !! j = Some (mkInjector vs' par))
            -> injectors w' !! j = Some (mkInjector vs' par)).
  { intros j0 vs' par H1 H2. subst w'. simpl.
    destruct (decide (j0 = i)) as [-> | Hj].
    - destruct (H1 eq_refl) as [-> ->]. apply lookup_insert_eq.
    - rewrite lookup_insert_ne by done. by apply H2. }
  split.
  - intros Hty n. revert j.
    induction n as [| n IH]; intros j; [done |].
    destruct (decide (j = i)) as [-> | Hj].
    + rewrite (Get_S _ _ _ _ _ Hi).
      erewrite (Get_S _ _ _ w') by (apply Hsame; [done | done]).
      cbn [values parent].
      rewrite map_index_assign_ne by done.
      destruct (IsValid (map_index (values inj) (Some ty))); [done |].
      rewrite bool_decide_eq_false_2 by done.
      destruct (parent inj) as [p |]; [| done].
      destruct (negb _); [apply IH | done].
    + destruct (injectors w !! j) as [injj |] eqn:Hjj.
      * rewrite (Get_S _ _ _ _ _ Hjj).
        erewrite (Get_S _ _ _ w')
          by (apply (Hsame j (values injj) (parent injj));
              [done | by destruct injj]).
        cbn [values parent].
        destruct (IsValid (map_index (values injj) (Some ty))); [done |].
        rewrite bool_decide_eq_false_2 by done.
        destruct (parent injj) as [p |]; [| done].
        destruct (negb _); [apply IH | done].
      * simpl. run. subst w'. simpl. rewrite lookup_insert_ne by done.
        by rewrite Hjj.
  - intros injj n Hjj Hv. split; [by apply Get_exact |].
    destruct (decide (j = i)) as [-> | Hj].
    + assert (injj = inj) as -> by congruence.
      erewrite (Get_S _ _ _ w') by (apply Hsame; [done | done]).
      cbn [values parent]. rewrite map_index_assign_ne by done.
      by rewrite Hv.
    + erewrite (Get_S _ _ _ w')
        by (apply (Hsame j (values injj) (parent injj));
            [done | by destruct injj]).
      cbn [values parent]. by rewrite Hv.
Qed.

(** X4.  After [MapTo] of a non-nil value with a witness that denotes the
    interface type [I], [Get] of [I] returns that value, whether or not its
    type implements [I]. *)
Theorem MapTo_then_Get fuel n i w inj typ d ifacePtr I k :
  injectors w !! i = Some inj ->
  denotes_interface (TypeOf ifacePtr) I k ->
  k <= fuel ->
  exists w',
    MapTo fuel i (Val typ d) ifacePtr w = Ok i w'
    /\ Get (S n) i (Some I) w' = Ok (Val typ d) w'.
Proof.
  intros Hi HI Hle. destruct ifacePtr as [| ty dw]; [inversion HI |].
  pose proof (denotes_interface_Kind _ _ _ HI) as Hk.
  apply (denotes_interface_elem_loop _ _ _ fuel) in HI; [| done].
  eexists. split.
  - unfold MapTo, InterfaceOf. run. rewrite Hi. cbn [TypeOf]. rewrite HI.
    rewrite bool_decide_eq_true_2 by done. reflexivity.
  - erewrite Get_S by (simpl; apply lookup_insert_eq).
    simpl. by rewrite map_index_assign_eq.
Qed.

(** *** [InterfaceOf] *)

(** X5.  When [InterfaceOf] returns, it returns an interface type, the one
    its argument's type denotes, and the state is unchanged; one more level
    of pointer around the argument, whatever the pointers hold, costs one
    more iteration of the loop and does not change the answer; an answer
    or a panic, once given, is the same for every larger bound on the
    iterations; and on nil it panics. *)
Theorem InterfaceOf_result fuel value ty d d' w :
  (forall I w', InterfaceOf fuel value w = Ok I w' ->
     w' = w /\ Type_Kind I = Interface
     /\ exists k, k <= fuel /\ denotes_interface (TypeOf value) I k)
  /\ InterfaceOf (S fuel) (Val (TPtr ty) d) w = InterfaceOf fuel (Val ty d') w
  /\ (forall fuel', fuel <= fuel' -> InterfaceOf fuel value w <> Timeout ->
       InterfaceOf fuel' value w = InterfaceOf fuel value w)
  /\ InterfaceOf fuel Zero w = Panic nil_deref.
Proof.
  split; [| split; [done | split; [| done]]].
  - intros I w'. unfold InterfaceOf. destruct value as [| tv dv]; [done |].
    cbn [TypeOf]. destruct (elem_loop fuel tv) as [r |] eqn:Hr; [| done].
    destruct (decide (Type_Kind r = Interface)) as [Hk | Hk].
    + rewrite bool_decide_eq_true_2 by done. run. intros [= <- <-].
      split; [done |]. split; [done |]. by apply (elem_loop_denotes fuel).
    + by rewrite bool_decide_eq_false_2.
  - intros fuel' Hle. unfold InterfaceOf. destruct value as [| tv dv]; [done |].
    cbn [TypeOf]. destruct (elem_loop fuel tv) as [r |] eqn:Hr; [| done].
    intros _. by rewrite (elem_loop_mono _ _ _ _ Hr Hle).
Qed.

(** *** [Get] along the parent chain *)

Lemma Get_passes n i ty w inj p :
  injectors w !! i = Some inj -> unresolved_at ty inj ->
  parent inj = Some p ->
  Get (S n) i (Some ty) w = Get n p (Some ty) w.
Proof.
  intros Hi [Hown Hscan] Hp.
  pose proof (Get_delegates n i ty w inj Hi Hown Hscan) as H.
  by rewrite Hp in H.
Qed.

Lemma Get_walks_chain_aux w ty i j k :
  passes_up w ty i j k ->
  forall n, Get (k + n) i (Some ty) w = Get n j (Some ty) w.
Proof.
  induction 1 as [i | i inj p j k Hi Hun Hp _ IH]; intros n; [done |].
  change (S k + n) with (S (k + n)).
  rewrite (Get_passes _ _ _ _ _ _ Hi Hun Hp). apply IH.
Qed.

(** X6.  [Get] walks the whole chain: when the registries from [i] up to
    the ancestor [j], [k] parent links above, have nothing of their own for
    a type, [Get] on [i] answers what [Get] on [j] answers; so a value that
    [j] resolves is what [i] returns. *)
Theorem Get_walks_chain w ty i j k v n :
  passes_up w ty i j k ->
  Get n j (Some ty) w = Ok v w ->
  Get (k + n) i (Some ty) w = Ok v w.
Proof.
  intros Hup Hj. by rewrite (Get_walks_chain_aux _ _ _ _ _ Hup).
Qed.



(** X8.  On a registry whose parent chain ends after [d] registries, [Get]
    finishes (returns or panics) within [d] nested calls, and its answer is
    the same however deep the recursion is allowed to go. *)
Theorem Get_on_ending_chain w i d t :
  chain w i d ->
  forall n, Get (d + n) i t w = Get d i t w /\ Get d i t w <> Timeout.
Proof.
  intros Hc n. split; [| by apply Get_chain_returns].
  induction Hc as [i inj Hi Hp | i inj p d Hi Hp _ IH].
  - change (1 + n) with (S n). by rewrite !(Get_S _ _ _ _ _ Hi), Hp.
  - change (S d + n) with (S (d + n)). rewrite !(Get_S _ _ _ _ _ Hi), Hp.
    destruct (IsValid _); [done |]. destruct t as [ty |]; [| done].
    destruct (bool_decide _).
    + destruct (range_implementor _ _ _ _) as [x w1 | |] eqn:Hr; [| done | done].
      apply range_implementor_world in Hr. subst w1.
      by destruct (negb (IsValid x)).
    + by destruct (negb _).
Qed.

(** X9.  [SetParent(nil)] detaches a registry: a type for which the
    registry has nothing of its own is then reported not-found, whatever
    its former parent holds. *)
Theorem SetParent_nil_detaches n i w inj ty :
  injectors w !! i = Some inj ->
  unresolved_at ty inj ->
  exists w',
    SetParent i None w = Ok tt w'
    /\ Get (S n) i (Some ty) w' = Ok Zero w'.
Proof.
  intros Hi [Hown Hscan]. eexists. split.
  - unfold SetParent. run. rewrite Hi. reflexivity.
  - set (w' := mkWorld _ _).
    assert (Hi' : injectors w' !! i = Some (mkInjector (values inj) None))
      by apply lookup_insert_eq.
    exact (Get_delegates n i ty w' _ Hi' Hown Hscan).
Qed.

(** *** [Get] returns stored values only *)

Lemma map_index_elem_of vs t v :
  map_index vs t = v -> IsValid v = true -> (t, v) ∈ vs.
Proof.
  induction vs as [| [k x] vs IH]; simpl; [by intros <- |].
  destruct (decide (k = t)) as [-> | Hne].
  - intros -> _. left.
  - intros H1 H2. right. by apply IH.
Qed.

Lemma range_implementor_elem_of vs ty val w v w' :
  range_implementor vs ty val w = Ok v w' ->
  v = val \/ exists k, (k, v) ∈ vs.
Proof.
  induction vs as [| [[k |] x] vs IH]; simpl; run.
  - intros [= <- _]. by left.
  - destruct (Implements k ty).
    + intros [= <- _]. right. exists (Some k). left.
    + intros H. destruct (IH H) as [-> | [k' Hk']]; [by left |].
      right. exists k'. by right.
  - done.
Qed.

(** X10.  [Get] makes up no value: a valid value it returns is stored, under
    some key, in the map of the registry it was called on or of one of its
    ancestors. *)
Theorem Get_returns_stored n i t w v w' :
  Get n i t w = Ok v w' ->
  IsValid v = true ->
  exists j inj k,
    ancestor w i j /\ injectors w !! j = Some inj /\ (k, v) ∈ values inj.
Proof.
  revert i. induction n as [| n IH]; intros i; [done |].
  destruct (injectors w !! i) as [inj |] eqn:Hi.
  - rewrite (Get_S _ _ _ _ _ Hi).
    destruct (IsValid (map_index (values inj) t)) eqn:Hown.
    + intros [= <- _] _. exists i, inj, t. split; [constructor |].
      split; [done |]. by apply map_index_elem_of.
    + apply IsValid_Zero in Hown. rewrite Hown.
      destruct t as [ty |]; [| done].
      assert (Hup : forall p,
                parent inj = Some p ->
                Get n p (Some ty) w = Ok v w' ->
                IsValid v = true ->
                exists j inj' k, ancestor w i j
                  /\ injectors w !! j = Some inj' /\ (k, v) ∈ values inj').
      { intros p Hp HG Hv.
        destruct (IH p HG Hv) as (j & inj' & k & Hanc & Hj & Hin).
        exists j, inj', k. split; [by eapply ancestor_parent |]. done. }
      assert (Hhere : forall k, (k, v) ∈ values inj ->
                exists j inj' k', ancestor w i j
                  /\ injectors w !! j = Some inj' /\ (k', v) ∈ values inj').
      { intros k Hk. exists i, inj, k. split; [constructor | done]. }
      destruct (bool_decide (Type_Kind ty = Interface)).
      * destruct (range_implementor _ _ _ _) as [x wx | |] eqn:Hr; [| done | done].
        pose proof (range_implementor_world _ _ _ _ _ _ Hr) as ->.
        apply range_implementor_elem_of in Hr.
        destruct (parent inj) as [p |] eqn:Hp.
        -- destruct (IsValid x) eqn:Hx; simpl.
           ++ intros [= <- _] _. destruct Hr as [-> | [k Hk]]; [done |].
              by eapply Hhere.
           ++ intros HG Hv. by eapply (Hup p).
        -- intros [= <- _] Hv. destruct Hr as [-> | [k Hk]]; [done |].
           by eapply Hhere.
      * destruct (parent inj) as [p |] eqn:Hp.
        -- simpl. intros HG Hv. by eapply (Hup p).
        -- by intros [= <- _] Hv.
  - simpl. run. by rewrite Hi.
Qed.

(** *** [Apply] when nothing, or everything, can be injected *)

Lemma Apply_fields_none fuel i at_ fields j w :
  Forall (fun f => injectable at_ f = false) fields ->
  Apply_fields fuel i at_ fields j w = Ok None w.
Proof.
  intros H. revert j. induction H as [| f fields Hf _ IH]; intros j; [done |].
  by rewrite Apply_fields_cons, Hf.
Qed.

(** X11.  [Apply] on a struct that has no field to inject into (a struct
    passed by value, whose fields cannot be set, or a struct whose fields
    are unexported or carry no inject tag) returns no error and changes
    nothing, whatever the registry holds: no dependency is looked up. *)
Theorem Apply_nothing_to_inject fuel i val w v at_ :
  Indirect fuel (mem w) (ValueOf val) = Some (v, at_) ->
  at_ = None \/ Forall (fun f => injectable at_ f = false) (Value_Fields v) ->
  Apply fuel i val w = Ok None w.
Proof.
  intros Hind Hno. unfold Apply. rewrite Hind.
  destruct (bool_decide (Value_Kind v <> Struct)); [done |].
  apply Apply_fields_none. destruct Hno as [-> | Hno]; [| done].
  by apply Forall_forall.
Qed.

(** The loop of [Apply] from field [j0] on, when every injectable field
    resolves to a value assignable to it. *)
Lemma Apply_fields_all fuel i p w fields :
  Forall (fun f => injectable (Some p) f = true ->
                   exists v, Get fuel i (Some (FieldType f)) w = Ok v w
                             /\ assignable_arg v (FieldType f) = true) fields ->
  forall j0 fs w1,
    injectors w1 = injectors w ->
    mem w1 !! p = Some (DStruct fs) ->
    exists fs',
      Apply_fields fuel i (Some p) fields j0 w1
        = Ok None (mkWorld (injectors w1) (<[p := DStruct fs']> (mem w1)))
      /\ length fs' = length fs
      /\ (forall j f, fields !! j = Some f -> injectable (Some p) f = true ->
            j0 + j < length fs ->
            exists v, Get fuel i (Some (FieldType f)) w = Ok v w
                      /\ fs' !! (j0 + j) = Some (assignTo v (FieldType f)))
      /\ (forall k, k < j0 -> fs' !! k = fs !! k)
      /\ (forall j, (forall f, fields !! j = Some f ->
                                injectable (Some p) f = false) ->
            fs' !! (j0 + j) = fs !! (j0 + j)).
Proof.
  induction 1 as [| f fields Hf _ IH]; intros j0 fs w1 Hinj Hmem.
  - exists fs. split; [| by repeat split; intros; try discriminate].
    simpl. unfold ret. rewrite insert_id by done. by destruct w1.
  - rewrite Apply_fields_cons.
    destruct (injectable (Some p) f) eqn:Hinjf.
    + destruct (Hf eq_refl) as (v & Hv & Ha). unfold bind, ret.
      rewrite (Get_same_injectors _ _ _ w w1 v) by done.
      destruct v as [| vt d]; [done |]. simpl in Ha.
      cbn [IsValid negb]. unfold Field_Set. rewrite Ha, Hmem.
      set (fs1 := <[j0 := assignTo (Val vt d) (FieldType f)]> fs).
      set (w2 := mkWorld (injectors w1) (<[p := DStruct fs1]> (mem w1))).
      destruct (IH (S j0) fs1 w2) as (fs' & Hrun & Hlen & Hset & Hlow & Hkeep);
        [done | apply lookup_insert_eq |].
      exists fs'. fold w2. rewrite Hrun. subst w2. cbn [injectors mem].
      rewrite insert_insert_eq.
      assert (Hlen1 : length fs1 = length fs) by apply length_insert.
      split; [done |]. split; [congruence |]. split; [| split].
      * intros [| j] g Hg Hgi Hj; simpl in Hg.
        -- injection Hg as <-. exists (Val vt d). split; [done |].
           rewrite Nat.add_0_r in Hj |- *. rewrite Hlow by lia.
           by apply list_lookup_insert_eq.
        -- destruct (Hset j g Hg Hgi) as (x & Hx & Hfx); [lia |].
           exists x. split; [done |].
           by replace (j0 + S j) with (S j0 + j) by lia.
      * intros k Hk. rewrite Hlow by lia.
        apply list_lookup_insert_ne. lia.
      * intros [| j] Hj.
        -- specialize (Hj f eq_refl). congruence.
        -- replace (j0 + S j) with (S j0 + j) by lia.
           rewrite Hkeep by (intros g Hg; by apply (Hj g)).
           apply list_lookup_insert_ne. lia.
    + destruct (IH (S j0) fs w1) as (fs' & Hrun & Hlen & Hset & Hlow & Hkeep);
        [done | done |].
      exists fs'. split; [done |]. split; [done |]. split; [| split].
      * intros [| j] g Hg Hgi Hj; simpl in Hg.
        -- injection Hg as <-. congruence.
        -- destruct (Hset j g Hg Hgi) as (x & Hx & Hfx); [lia |].
           exists x. split; [done |].
           by replace (j0 + S j) with (S j0 + j) by lia.
      * intros k Hk. apply Hlow. lia.
      * intros [| j] Hj.
        -- rewrite Nat.add_0_r. apply Hlow. lia.
        -- replace (j0 + S j) with (S j0 + j) by lia.
           apply Hkeep. intros g Hg. by apply (Hj g).
Qed.

(** X12.  [Apply] on a struct reached through a pointer, when every
    injectable field resolves to a value assignable to it, returns no
    error; every injectable field then holds the value [Get] resolves for
    its type, every other field is as it was, and no registry changed. *)
Theorem Apply_all_resolved fuel i val w b d p fs :
  Indirect fuel (mem w) (ValueOf val) = Some (Val (TBase b) d, Some p) ->
  base_Kind b = Struct ->
  mem w !! p = Some (DStruct fs) ->
  length fs = length (Fields b) ->
  Forall (fun f => injectable (Some p) f = true ->
                   exists v, Get fuel i (Some (FieldType f)) w = Ok v w
                             /\ assignable_arg v (FieldType f) = true)
         (Fields b) ->
  exists fs',
    Apply fuel i val w
      = Ok None (mkWorld (injectors w) (<[p := DStruct fs']> (mem w)))
    /\ length fs' = length fs
    /\ (forall j f, Fields b !! j = Some f -> injectable (Some p) f = true ->
          exists v, Get fuel i (Some (FieldType f)) w = Ok v w
                    /\ fs' !! j = Some (assignTo v (FieldType f)))
    /\ (forall j, (forall f, Fields b !! j = Some f ->
                              injectable (Some p) f = false) ->
          fs' !! j = fs !! j).
Proof.
  intros Hind Hb Hmem Hlen Hall.
  destruct (Apply_fields_all fuel i p w (Fields b) Hall 0 fs w eq_refl Hmem)
    as (fs' & Hrun & Hlen' & Hset & _ & Hkeep).
  exists fs'. split; [| split; [done | split]].
  - unfold Apply. rewrite Hind. cbn [Value_Kind Type_Kind Value_Fields Type_Fields].
    by rewrite bool_decide_eq_false_2 by (intros Hne; by apply Hne).
  - intros j f Hj Hf. apply (Hset j f Hj Hf). simpl.
    apply lookup_lt_Some in Hj. lia.
  - intros j Hj. by apply (Hkeep j).
Qed.

(** X13.  [Apply] on a pointer to a struct is idempotent when the
    receiver itself maps the type of every injectable field to a value
    assignable to it, so that every field is resolved by a lookup under
    its own type: the first [Apply] changes no registry, and a second
    [Apply] returns no error again and leaves the state as the first one
    left it, in whatever order the entries of the registry come the second
    time. *)
Theorem Apply_idempotent n i w inj b p fs :
  injectors w !! i = Some inj ->
  base_Kind b = Struct ->
  mem w !! p = Some (DStruct fs) ->
  Forall (fun f => injectable (Some p) f = true ->
                   assignable_arg (map_index (values inj) (Some (FieldType f)))
                                  (FieldType f) = true)
         (Fields b) ->
  exists w1,
    Apply (S n) i (Val (TPtr (TBase b)) (DPtr (Some p))) w = Ok None w1
    /\ injectors w1 = injectors w
    /\ forall w2, mem w2 = mem w1 -> same_map i w w2 ->
         Apply (S n) i (Val (TPtr (TBase b)) (DPtr (Some p))) w2 = Ok None w2.
Proof.
  intros Hi Hb Hmem Hmapped.
  assert (Hexact : forall w0 inj0 f,
            injectors w0 !! i = Some inj0 ->
            (forall t, map_index (values inj0) t = map_index (values inj) t) ->
            assignable_arg (map_index (values inj) (Some (FieldType f)))
                           (FieldType f) = true ->
            Get (S n) i (Some (FieldType f)) w0
              = Ok (map_index (values inj) (Some (FieldType f))) w0).
  { intros w0 inj0 f H0 Heq Ha. rewrite <- Heq. apply Get_exact; [done |].
    rewrite Heq. by destruct (map_index (values inj) (Some (FieldType f))). }
  assert (Hall : forall w0 inj0,
            injectors w0 !! i = Some inj0 ->
            (forall t, map_index (values inj0) t = map_index (values inj) t) ->
            Forall (fun f => injectable (Some p) f = true ->
                     exists v, Get (S n) i (Some (FieldType f)) w0 = Ok v w0
                               /\ assignable_arg v (FieldType f) = true)
                   (Fields b)).
  { intros w0 inj0 H0 Heq. eapply Forall_impl; [exact Hmapped |].
    intros f Hf Hinj. specialize (Hf Hinj). eexists. split; [| exact Hf].
    by apply (Hexact w0 inj0). }
  destruct (Apply_fields_all (S n) i p w (Fields b) (Hall w inj Hi (fun _ => eq_refl))
              0 fs w eq_refl Hmem)
    as (fs1 & Hrun1 & Hlen1 & Hset1 & _ & Hkeep1).
  set (w1 := mkWorld (injectors w) (<[p := DStruct fs1]> (mem w))) in *.
  assert (Hderef : forall w0 fs0, mem w0 !! p = Some (DStruct fs0) ->
            Apply (S n) i (Val (TPtr (TBase b)) (DPtr (Some p))) w0
              = Apply_fields (S n) i (Some p) (Fields b) 0 w0).
  { intros w0 fs0 H0. unfold Apply, Indirect, ValueOf.
    rewrite elem_value_loop_S, bool_decide_eq_true_2 by done.
    cbn [Value_Elem]. rewrite H0. cbn [fst snd Type_Elem].
    destruct n; [rewrite elem_value_loop_0 | rewrite elem_value_loop_S];
      cbn [Value_Kind Type_Kind Value_Fields Type_Fields];
      rewrite bool_decide_eq_false_2 by congruence;
      by rewrite bool_decide_eq_false_2 by (intros Hne; by apply Hne). }
  exists w1. split; [by rewrite (Hderef w fs Hmem) |]. split; [done |].
  intros w2 Hmem2 (inj1 & inj2 & H1 & H2 & _ & Heq).
  assert (inj1 = inj) as -> by congruence.
  assert (Hp2 : mem w2 !! p = Some (DStruct fs1))
    by (rewrite Hmem2; apply lookup_insert_eq).
  destruct (Apply_fields_all (S n) i p w2 (Fields b) (Hall w2 inj2 H2 Heq)
              0 fs1 w2 eq_refl Hp2)
    as (fs2 & Hrun2 & Hlen2 & Hset2 & _ & Hkeep2).
  assert (Hfs : fs2 = fs1).
  { apply list_eq. intros k.
    destruct (Fields b !! k) as [f |] eqn:Hf;
      [destruct (injectable (Some p) f) eqn:Hinj |].
    - destruct (decide (k < length fs)) as [Hk | Hk].
      + destruct (Hset1 k f Hf Hinj Hk) as (v1 & Hv1 & Hf1).
        destruct (Hset2 k f Hf Hinj) as (v2 & Hv2 & Hf2); [simpl; lia |].
        simpl in Hf1, Hf2. rewrite Hf1, Hf2.
        pose proof (proj1 (Forall_lookup _ _) Hmapped k f Hf Hinj) as Ha.
        rewrite (Hexact w inj f Hi (fun _ => eq_refl) Ha) in Hv1.
        rewrite (Hexact w2 inj2 f H2 Heq Ha) in Hv2. congruence.
      + rewrite !lookup_ge_None_2 by lia. done.
    - apply (Hkeep2 k). intros g Hg. congruence.
    - apply (Hkeep2 k). intros g Hg. congruence. }
  rewrite (Hderef w2 fs1 Hp2), Hrun2, Hfs.
  rewrite insert_id by done. by destruct w2.
Qed.

(** X17.  [Apply] on a pointer that points to itself, as [p] does after
    [type P *P; var p P; p = &p], never returns: the loop that removes the
    pointer indirections goes from [p] to [p], whatever the number of
    iterations it is given. *)
Theorem Apply_pointer_cycle_never_returns fuel i ty p w :
  Type_Kind ty = Ptr ->
  Type_Elem ty = ty ->
  mem w !! p = Some (DPtr (Some p)) ->
  Apply fuel i (Val ty (DPtr (Some p))) w = Timeout.
Proof.
  intros Hk He Hp. unfold Apply, Indirect, ValueOf.
  assert (Hloop : forall at_,
            elem_value_loop fuel (mem w) (Val ty (DPtr (Some p))) at_ = None).
  { induction fuel as [| fuel IH]; intros at_.
    - by rewrite elem_value_loop_0, bool_decide_eq_true_2.
    - rewrite elem_value_loop_S, bool_decide_eq_true_2 by done.
      cbn [Value_Elem]. rewrite Hp, He. apply IH. }
  by rewrite Hloop.
Qed.

(** *** [Invoke] on what is not a function *)

(** X14.  [Invoke] panics when its argument is nil or is not a function,
    before any dependency is looked up: the panic does not depend on the
    registry, on the receiver or on the program. *)
Theorem Invoke_not_a_function f :
  (TypeOf f = None \/ exists tf, TypeOf f = Some tf /\ Type_Kind tf <> Func) ->
  exists msg, forall code fuel i w, Invoke code fuel i f w = Panic msg.
Proof.
  intros [Hf | (tf & Hf & Hk)]; unfold Invoke; rewrite Hf.
  - by eexists.
  - rewrite bool_decide_eq_false_2 by done. by eexists.
Qed.

(** *** Zero Values and nil keys in the map *)

(** X15.  [Set] of the zero Value unmaps a type that is not an interface
    type: whatever the registry held under it before, [Get] then answers
    with what the parent answers, or with not-found when there is no
    parent. *)
Theorem Set_zero_unmaps n i w inj ty :
  injectors w !! i = Some inj ->
  Type_Kind ty <> Interface ->
  exists w',
    Set_ i (Some ty) Zero w = Ok i w'
    /\ match parent inj with
       | Some p => Get (S n) i (Some ty) w' = Get n p (Some ty) w'
       | None => Get (S n) i (Some ty) w' = Ok Zero w'
       end.
Proof.
  intros Hi Hk. eexists. split.
  - unfold Set_. run. rewrite Hi. reflexivity.
  - set (w' := mkWorld _ _).
    assert (Hi' : injectors w' !! i
                  = Some (mkInjector (map_assign (values inj) (Some ty) Zero)
                                     (parent inj)))
      by apply lookup_insert_eq.
    apply (Get_delegates n i ty w' _ Hi'); cbn [values].
    + by rewrite map_index_assign_eq.
    + by left.
Qed.

Lemma range_implementor_nil_key pre x post ty val w :
  Forall (passed_over ty) pre ->
  range_implementor (pre ++ (None, x) :: post) ty val w = Panic nil_deref.
Proof.
  induction 1 as [| [k0 y] pre [k' [Hk0 Himp]] _ IH]; simpl; [done |].
  simpl in Hk0. subst k0. by rewrite Himp.
Qed.

(** X16.  A nil key in the map, as [Map(nil)] leaves one, makes [Get] of an
    interface type panic: when the registry holds no valid value under the
    interface type and the scan meets the nil key before a key that
    implements it, [Get] panics, parent or no parent. *)
Theorem Get_nil_key_panics n i w inj I pre x post :
  injectors w !! i = Some inj ->
  Type_Kind I = Interface ->
  IsValid (map_index (values inj) (Some I)) = false ->
  values inj = (pre ++ (None, x) :: post)%list ->
  Forall (passed_over I) pre ->
  Get (S n) i (Some I) w = Panic nil_deref.
Proof.
  intros Hi Hk Hown Hvs Hpre. rewrite (Get_S _ _ _ _ _ Hi), Hown.
  rewrite bool_decide_eq_true_2 by done.
  by rewrite Hvs, range_implementor_nil_key.
Qed.

End Properties.

(** ** The injector on the small program *)

Import Demo.

Ltac by_running := vm_compute; reflexivity.

(** A registry that is its own parent: [SetParent] does not look for a
    cycle, and [Get] of a type that is not mapped never returns. *)
Lemma Get_parent_cycle n :
  SetParent 0 (Some 0) (single []) = Ok tt (mkWorld {[ 0 := mkInjector [] (Some 0) ]} ∅)
  /\ Get n 0 Int_ (mkWorld {[ 0 := mkInjector [] (Some 0) ]} ∅) = Timeout.
Proof.
  split; [by_running |].
  induction n as [| n IH]; [reflexivity |].
  erewrite (Get_S (U:=types)) by by_running. exact IH.
Qed.

(** C1, as stated, fails.  A child built by [Set(int, reflect.Value{})]
    has an entry under exactly [int], yet [Get(int)] returns the value of
    its parent, not that entry; and on a registry built by [Map(nil)],
    which has no parent and nothing for [Reader], [Get(Reader)] does not
    report not-found but panics on the nil key. *)
Lemma Get_exact_entry_counterexample :
  (c <- New ;; p <- New ;; Set_ c Int_ Zero ;;; Map p (int_ 7) ;;;
   SetParent c (Some p)) w0
    = Ok tt (child_parent [(Int_, Zero)] [(Int_, int_ 7)])
  /\ (Int_, Zero) ∈ [(Int_, @Zero types)]
  /\ Get 2 0 Int_ (child_parent [(Int_, Zero)] [(Int_, int_ 7)])
     = Ok (int_ 7) (child_parent [(Int_, Zero)] [(Int_, int_ 7)])
  /\ (c <- New ;; Map c Zero) w0 = Ok 0 (single [(None, Zero)])
  /\ Get 1 0 Reader (single [(None, Zero)]) = Panic nil_deref.
Proof.
  repeat split; try by_running. by left.
Qed.

(** The resolution order at work: an exact entry, and a delegated one. *)
Lemma Get_resolution_order_witness :
  injectors (child_parent [(Reader, file)] [(Int_, int_ 7)]) !! 0
    = Some (mkInjector [(Reader, file)] (Some 1))
  /\ Get 1 0 Reader (child_parent [(Reader, file)] [(Int_, int_ 7)])
     = Ok file (child_parent [(Reader, file)] [(Int_, int_ 7)])
  /\ Get 2 0 Int_ (child_parent [(Reader, file)] [(Int_, int_ 7)])
     = Get 1 1 Int_ (child_parent [(Reader, file)] [(Int_, int_ 7)]).
Proof.
  assert (H : injectors (child_parent [(Reader, file)] [(Int_, int_ 7)]) !! 0
              = Some (mkInjector [(Reader, file)] (Some 1))) by by_running.
  split; [exact H |]. split.
  - apply (proj1 (Get_resolution_order (U:=types) 0 0 Reader _ _ H)). reflexivity.
  - apply (proj2 (proj2 (Get_resolution_order (U:=types) 1 0 Int_ _ _ H) eq_refl
                    (TBase t_int) eq_refl)).
    left. discriminate.
Defined.

(** C6, as stated, fails: after [Map(nil)], [Get(reflect.TypeOf(nil))]
    panics. *)
Lemma Map_nil_counterexample :
  Map 0 Zero (single []) = Ok 0 (single [(TypeOf Zero, Zero)])
  /\ Get 1 0 (TypeOf Zero) (single [(TypeOf Zero, Zero)]) = Panic nil_deref.
Proof. split; by_running. Qed.

(** [Map(0)], then [Get(int)]: the zero of [int] is found. *)
Lemma Map_then_Get_witness :
  injectors (single []) !! 0 = Some (mkInjector [] None)
  /\ exists w',
       Map 0 (int_ 0) (single []) = Ok 0 w'
       /\ Get 1 0 (TypeOf (int_ 0)) w' = Ok (int_ 0) w'
       /\ IsValid (int_ 0) = true.
Proof.
  assert (H : injectors (single []) !! 0 = Some (mkInjector [] None))
    by by_running.
  split; [exact H |].
  exact (Map_then_Get (U:=types) 0 0 (single []) _ (TBase t_int) (DInt 0) H).
Defined.





(** C7, as stated, fails.  A child built by [Map(nil)] has no entry for
    [Reader] and no entry that satisfies it, and its parent resolves
    [Reader]; the child's [Get(Reader)] panics on the nil key.  And a child
    that holds the zero Value under [int] does not take precedence over its
    parent. *)
Lemma Get_parent_counterexample :
  (c <- New ;; p <- New ;; Map c Zero ;;; Map p file ;;;
   SetParent c (Some p)) w0
    = Ok tt (child_parent [(None, Zero)] [(Some (TBase t_File), file)])
  /\ Get 1 1 Reader (child_parent [(None, Zero)] [(Some (TBase t_File), file)])
     = Ok file (child_parent [(None, Zero)] [(Some (TBase t_File), file)])
  /\ Get 2 0 Reader (child_parent [(None, Zero)] [(Some (TBase t_File), file)])
     = Panic nil_deref
  /\ (c <- New ;; p <- New ;; Set_ c Int_ Zero ;;; Map p (int_ 7) ;;;
      SetParent c (Some p)) w0
     = Ok tt (child_parent [(Int_, Zero)] [(Int_, int_ 7)])
  /\ Get 2 0 Int_ (child_parent [(Int_, Zero)] [(Int_, int_ 7)])
     = Ok (int_ 7) (child_parent [(Int_, Zero)] [(Int_, int_ 7)]).
Proof. repeat split; by_running. Qed.

(** A child that maps [Reader] and a parent that maps [int]: [int] comes
    from the parent, [Reader] from the child. *)
Lemma Get_parent_delegation_witness :
  injectors (mkWorld {[ 0 := mkInjector [(Reader, file)] None;
                        1 := mkInjector [(Int_, int_ 7)] None ]} ∅) !! 0
    = Some (mkInjector [(Reader, file)] None)
  /\ exists w1,
       SetParent 0 (Some 1)
         (mkWorld {[ 0 := mkInjector [(Reader, file)] None;
                     1 := mkInjector [(Int_, int_ 7)] None ]} ∅) = Ok tt w1
       /\ Get 2 0 Int_ w1 = Ok (int_ 7) w1
       /\ Get 2 0 Reader w1 = Ok file w1.
Proof.
  set (w := mkWorld _ _).
  assert (H : injectors w !! 0 = Some (mkInjector [(Reader, file)] None))
    by by_running.
  split; [exact H |].
  destruct (Get_parent_delegation (U:=types) 1 0 1 (TBase t_int) w _ H)
    as (w1 & Hset & Hdel & _).
  destruct (Get_parent_delegation (U:=types) 1 0 1 (TBase t_Reader) w _ H)
    as (w1' & Hset' & _ & Hown).
  assert (w1' = w1) by congruence. subst w1'.
  exists w1. split; [exact Hset |]. split.
  - apply Hdel; [reflexivity | discriminate | reflexivity |].
    injection Hset as <-. by_running.
  - by apply Hown.
Defined.

(** The pointer indirections of [Loop] never end, and [Loop] denotes no
    interface type. *)
Lemma Loop_endless : endless (U:=types) (TBase t_Loop).
Proof.
  intros k. induction k as [| k IH]; [reflexivity |].
  rewrite Nat.iter_succ_r. exact IH.
Qed.

Lemma Loop_denotes_nothing I k :
  ~ denotes_interface (U:=types) (Some (TBase t_Loop)) I k.
Proof.
  induction k as [| k IH]; intros H; inversion H; subst; try discriminate.
  by apply IH.
Qed.

(** C8, as stated, fails.  After [type Loop *Loop], the witness
    [Loop(nil)] does not denote an interface type, however many pointer
    indirections are removed: [Loop] is a pointer type whose element type
    is [Loop].  Yet [MapTo] does not panic on it: the loop of
    [InterfaceOf] goes from [Loop] to [Loop] and never ends, whatever the
    number of iterations it is given, so that the call does not return. *)
Lemma MapTo_loop_counterexample :
  Type_Kind (TBase t_Loop) = Ptr
  /\ Type_Elem (TBase t_Loop) = TBase t_Loop
  /\ ~ (exists I k, denotes_interface (TypeOf Loop_nil) I k)
  /\ (forall fuel, MapTo fuel 0 file Loop_nil (single []) = Timeout)
  /\ ~ (exists fuel msg, MapTo fuel 0 file Loop_nil (single []) = Panic msg).
Proof.
  assert (Hrun : forall fuel, MapTo fuel 0 file Loop_nil (single []) = Timeout).
  { intros fuel.
    apply (MapTo_endless (U:=types) fuel 0 file (TBase t_Loop) (DPtr None)
             (single []) (mkInjector [] None)); [by_running | exact Loop_endless]. }
  split; [reflexivity |]. split; [reflexivity |]. split; [| split].
  - intros (I & k & H). exact (Loop_denotes_nothing I k H).
  - exact Hrun.
  - intros (fuel & msg & H). rewrite Hrun in H. discriminate.
Qed.

(** [MapTo] with the nil pointer to [Reader] as witness, with a nil
    [ReaderRef], with an integer, and with a nil [Loop]. *)
Lemma MapTo_panics_iff_witness :
  injectors (single []) !! 0 = Some (mkInjector [] None)
  /\ MapTo 1 0 file Reader_ptr (single []) = Ok 0 (single [(Reader, file)])
  /\ MapTo 1 0 file ReaderRef_nil (single []) = Ok 0 (single [(Reader, file)])
  /\ (exists msg, MapTo 1 0 file (int_ 3) (single []) = Panic msg)
  /\ MapTo 1 0 file Loop_nil (single []) = Timeout.
Proof.
  assert (H : injectors (single []) !! 0 = Some (mkInjector [] None))
    by by_running.
  split; [exact H |]. split; [| split; [| split]].
  - destruct (proj1 (proj2 (MapTo_panics_iff (U:=types) 1 0 (single []) _ file
                              Reader_ptr H))
                (TBase t_Reader) 1) as [Hrun _]; [| lia |].
    { change (TypeOf Reader_ptr) with (Some (TPtr (TBase t_Reader))).
      apply (denotes_elem (U:=types)); [reflexivity |].
      apply (denotes_here (U:=types)). reflexivity. }
    rewrite Hrun. by_running.
  - destruct (proj1 (proj2 (MapTo_panics_iff (U:=types) 1 0 (single []) _ file
                              ReaderRef_nil H))
                (TBase t_Reader) 1) as [Hrun _]; [| lia |].
    { change (TypeOf ReaderRef_nil) with (Some (TBase t_ReaderRef)).
      apply (denotes_elem (U:=types)); [reflexivity |].
      apply (denotes_here (U:=types)). reflexivity. }
    rewrite Hrun. by_running.
  - apply (proj1 (MapTo_panics_iff (U:=types) 1 0 (single []) _ file (int_ 3) H) 0).
    + discriminate.
    + lia.
    + change (TypeOf (int_ 3)) with (Some (TBase t_int)).
      intros (I & j & HI). inversion HI; subst; discriminate.
  - apply (proj2 (proj2 (MapTo_panics_iff (U:=types) 1 0 (single []) _ file
                           Loop_nil H)) (TBase t_Loop)).
    + reflexivity.
    + exact Loop_endless.
Defined.


(** C10, as stated, fails: [Invoke] of a function that maps a value into
    the injector leaves the registry with one more entry. *)
Lemma Invoke_remap_counterexample :
  injectors (single []) !! 0 = Some (mkInjector [] None)
  /\ Invoke code 1 0 remap (single [])
     = Ok ([], None) (single [(Int_, int_ 1)])
  /\ injectors (single [(Int_, int_ 1)]) !! 0
     = Some (mkInjector [(Int_, int_ 1)] None).
Proof. repeat split; by_running. Qed.

(** [Apply] fills two fields of a [Service] and leaves the registries as
    they were. *)
Lemma registry_frame_witness :
  Apply 1 0 service_ptr (with_service [(Reader, file); (Int_, int_ 8080)])
    = Ok None (mkWorld (injectors (with_service [(Reader, file); (Int_, int_ 8080)]))
                       {[ 1 := DStruct [DIface file; DInt 8080;
                                        DString ""; DString ""] ]})
  /\ injectors (mkWorld (injectors (with_service [(Reader, file); (Int_, int_ 8080)]))
                        {[ 1 := DStruct [DIface file; DInt 8080;
                                         DString ""; DString ""] ]})
     = injectors (with_service [(Reader, file); (Int_, int_ 8080)]).
Proof.
  assert (H : Apply 1 0 service_ptr
                (with_service [(Reader, file); (Int_, int_ 8080)])
              = Ok None
                  (mkWorld (injectors (with_service
                                         [(Reader, file); (Int_, int_ 8080)]))
                           {[ 1 := DStruct [DIface file; DInt 8080;
                                            DString ""; DString ""] ]}))
    by by_running.
  split; [exact H |].
  exact (proj1 (proj2 (registry_frame (U:=types) code 1 0 None service_ptr Zero None None
                         _)) _ _ H).
Defined.

(** C4, as stated, fails.  After [MapTo("hello", Reader)] and [Map(1)]
    both parameter types of [handler] resolve, yet [Invoke] panics in
    [Call], the string not being assignable to [Reader], and [handler] is
    never run; and after [Map([]int{1, 2})] the parameter type of the
    variadic [sum] resolves, yet [Invoke] panics in [Call], which takes the
    resolved slice for one element of the variadic parameter. *)
Lemma Invoke_resolved_counterexample :
  (c <- New ;; MapTo 1 c (str "hello") Reader_ptr ;;; Map c (int_ 1)) w0
    = Ok 0 (single [(Reader, str "hello"); (Int_, int_ 1)])
  /\ In t_handler = [TBase t_Reader; TBase t_int]
  /\ Get 1 0 Reader (single [(Reader, str "hello"); (Int_, int_ 1)])
     = Ok (str "hello") (single [(Reader, str "hello"); (Int_, int_ 1)])
  /\ Get 1 0 Int_ (single [(Reader, str "hello"); (Int_, int_ 1)])
     = Ok (int_ 1) (single [(Reader, str "hello"); (Int_, int_ 1)])
  /\ Invoke code 1 0 handler (single [(Reader, str "hello"); (Int_, int_ 1)])
     = Panic Call_msg
  /\ (c <- New ;; Map c (ints [1; 2]%Z)) w0
     = Ok 0 (single [(Some (TBase t_ints), ints [1; 2]%Z)])
  /\ In t_sum = [TBase t_ints]
  /\ Get 1 0 (Some (TBase t_ints)) (single [(Some (TBase t_ints), ints [1; 2]%Z)])
     = Ok (ints [1; 2]%Z) (single [(Some (TBase t_ints), ints [1; 2]%Z)])
  /\ Invoke code 1 0 sum (single [(Some (TBase t_ints), ints [1; 2]%Z)])
     = Panic Call_msg.
Proof. repeat split; by_running. Qed.

(** [stub] with its parameter unmapped: the error, and the flag not set;
    [handler] with both parameters mapped: its result. *)
Lemma Invoke_all_or_nothing_witness :
  base_Kind t_stub = Func
  /\ Invoke code 1 0 stub (single [])
     = Ok ([], Some (ValueNotFound (TBase t_string))) (single [])
  /\ mem (single []) !! flag = None
  /\ Invoke code 1 0 handler (single [(Reader, file); (Int_, int_ 1)])
     = Ok ([int_ 42], None) (single [(Reader, file); (Int_, int_ 1)]).
Proof.
  split; [reflexivity |]. split; [| split; [by_running |]].
  - apply (proj1 (Invoke_all_or_nothing (U:=types) 1 0 t_stub (DFunc (Some 1))
                    (single []) eq_refl) code [] (TBase t_string) []);
      [reflexivity | constructor | by_running].
  - etransitivity.
    + apply (proj2 (Invoke_all_or_nothing (U:=types) 1 0 t_handler
                      (DFunc (Some 0))
                      (single [(Reader, file); (Int_, int_ 1)]) eq_refl)
               code 0 [file; int_ 1] eq_refl eq_refl).
      repeat constructor; by_running.
    + reflexivity.
Defined.

(** C5, as stated, fails.  After [MapTo("hello", Reader)] the field [Port]
    of [Service], injectable and of the unmapped type [int], does not
    resolve; [Apply] on a pointer to a [Service] does not return an error
    for it but panics at the field [In] before it, the string not being
    assignable to [Reader]. *)
Lemma Apply_missing_counterexample :
  (c <- New ;; MapTo 1 c (str "hello") Reader_ptr) w_service
    = Ok 0 (with_service [(Reader, str "hello")])
  /\ Fields t_Service !! 1
     = Some (mkField "Port" "" inject_tag (TBase t_int))
  /\ injectable (Some 1) (mkField "Port" "" inject_tag (TBase t_int)) = true
  /\ Get 1 0 Int_ (with_service [(Reader, str "hello")])
     = Ok Zero (with_service [(Reader, str "hello")])
  /\ Apply 1 0 service_ptr (with_service [(Reader, str "hello")])
     = Panic Set_msg.
Proof. repeat split; by_running. Qed.

(** [Reader] mapped and [int] not: the error names [int], and the field
    [In], set before the failure, keeps the injected value. *)
Lemma Apply_missing_dependency_witness :
  Indirect 1 (mem (with_service [(Reader, file)])) (ValueOf service_ptr)
    = Some (Val (TBase t_Service) service_zero, Some 1)
  /\ Get 1 0 Int_ (with_service [(Reader, file)])
     = Ok Zero (with_service [(Reader, file)])
  /\ exists fs',
       Apply 1 0 service_ptr (with_service [(Reader, file)])
         = Ok (Some (ValueNotFound (TBase t_int)))
              (mkWorld (injectors (with_service [(Reader, file)]))
                       (<[1 := DStruct fs']> (mem (with_service [(Reader, file)]))))
       /\ fs' !! 0 = Some (DIface file)
       /\ fs' !! 1 = Some (DInt 0).
Proof.
  assert (Hind : Indirect 1 (mem (with_service [(Reader, file)]))
                   (ValueOf service_ptr)
                 = Some (Val (TBase t_Service) service_zero, Some 1))
    by by_running.
  assert (Hmiss : Get 1 0 Int_ (with_service [(Reader, file)])
                  = Ok Zero (with_service [(Reader, file)])) by by_running.
  split; [exact Hind |]. split; [exact Hmiss |].
  destruct (Apply_missing_dependency (U:=types) 1 0 service_ptr
              (with_service [(Reader, file)]) t_Service service_zero 1
              [DIface Zero; DInt 0; DString ""; DString ""]
              [mkField "In" "" inject_tag (TBase t_Reader)]
              (mkField "Port" "" inject_tag (TBase t_int))
              [mkField "note" "main" inject_tag (TBase t_string);
               mkField "Name" "" no_tag (TBase t_string)])
    as (fs' & Hrun & _ & Hset & Hkeep);
    [exact Hind | reflexivity | by_running | reflexivity | reflexivity
    | reflexivity | | exact Hmiss |].
  - constructor; [| constructor]. intros _. exists file.
    split; [by_running | reflexivity].
  - exists fs'. split; [exact Hrun |]. split.
    + destruct (Hset 0 _ eq_refl eq_refl) as (v & Hv & Hfs).
      assert (Hfile : Get 1 0 Reader (with_service [(Reader, file)])
                      = Ok file (with_service [(Reader, file)])) by by_running.
      pose proof (eq_trans (eq_sym Hv) Hfile) as Heq.
      injection Heq as ->. exact Hfs.
    + rewrite (Hkeep 1); [reflexivity |]. intros f Hf. discriminate.
Defined.

(** ** The further properties on the small program *)

(** [Map(1)] then [Map(2)]: one entry, holding 2. *)
Lemma Map_overwrites_witness :
  injectors (single []) !! 0 = Some (mkInjector [] None)
  /\ exists w1 w2,
       Map 0 (int_ 1) (single []) = Ok 0 w1
       /\ Map 0 (int_ 2) w1 = Ok 0 w2
       /\ Map 0 (int_ 2) (single []) = Ok 0 w2
       /\ Get 1 0 Int_ w2 = Ok (int_ 2) w2.
Proof.
  assert (H : injectors (single []) !! 0 = Some (mkInjector [] None))
    by by_running.
  split; [exact H |].
  exact (Map_overwrites (U:=types) 0 0 (single []) _ (TBase t_int)
           (DInt 1) (DInt 2) H).
Defined.

(** [Set(File, File{})] on a child that maps [Reader] and whose parent
    maps [int]: [Get(int)] still answers with the value of the parent, and
    [Get(Reader)] with the entry under [Reader]. *)
Lemma Set_keeps_other_answers_witness :
  Set_ 0 (Some (TBase t_File)) file (child_parent [(Reader, file)] [(Int_, int_ 7)])
    = Ok 0 (child_parent [(Reader, file); (Some (TBase t_File), file)]
                         [(Int_, int_ 7)])
  /\ Get 2 0 Int_ (child_parent [(Reader, file); (Some (TBase t_File), file)]
                                [(Int_, int_ 7)])
     = Ok (int_ 7) (child_parent [(Reader, file); (Some (TBase t_File), file)]
                                 [(Int_, int_ 7)])
  /\ Get 1 0 Reader (child_parent [(Reader, file); (Some (TBase t_File), file)]
                                  [(Int_, int_ 7)])
     = Ok file (child_parent [(Reader, file); (Some (TBase t_File), file)]
                             [(Int_, int_ 7)]).
Proof.
  assert (H : Set_ 0 (Some (TBase t_File)) file
                (child_parent [(Reader, file)] [(Int_, int_ 7)])
              = Ok 0 (child_parent [(Reader, file); (Some (TBase t_File), file)]
                                   [(Int_, int_ 7)])) by by_running.
  split; [exact H |]. split.
  - etransitivity.
    + apply (proj1 (Set_keeps_other_answers (U:=types) 0 _ file _ _ H 0
                      (TBase t_int) ltac:(discriminate))); discriminate.
    + by_running.
  - etransitivity.
    + apply (proj2 (Set_keeps_other_answers (U:=types) 0 _ file _ _ H 0
                      (TBase t_Reader) ltac:(discriminate))
               (mkInjector [(Reader, file)] (Some 1)) 0);
        [by_running | reflexivity].
    + by_running.
Defined.

(** [MapTo] of a string under [Reader], which it does not implement, then
    [Get(Reader)]. *)
Lemma MapTo_then_Get_witness :
  injectors (single []) !! 0 = Some (mkInjector [] None)
  /\ denotes_interface (TypeOf Reader_ptr) (TBase t_Reader) 1
  /\ exists w',
       MapTo 1 0 (str "hello") Reader_ptr (single []) = Ok 0 w'
       /\ Get 1 0 Reader w' = Ok (str "hello") w'.
Proof.
  assert (H : injectors (single []) !! 0 = Some (mkInjector [] None))
    by by_running.
  assert (HI : denotes_interface (TypeOf Reader_ptr) (TBase t_Reader) 1).
  { change (TypeOf Reader_ptr) with (Some (TPtr (TBase t_Reader))).
    apply (denotes_elem (U:=types)); [reflexivity |].
    apply (denotes_here (U:=types)). reflexivity. }
  split; [exact H |]. split; [exact HI |].
  apply (MapTo_then_Get (U:=types) 1 0 0 (single []) _ (TBase t_string)
           (DString "hello") Reader_ptr (TBase t_Reader) 1 H HI). lia.
Defined.

(** [InterfaceOf] on the nil pointer to [Reader], also with more
    iterations allowed than it takes. *)
Lemma InterfaceOf_result_witness :
  InterfaceOf 1 Reader_ptr w0 = Ok (TBase t_Reader) w0
  /\ (w0 = w0
      /\ Type_Kind (TBase t_Reader) = Interface
      /\ exists k, k <= 1 /\ denotes_interface (TypeOf Reader_ptr) (TBase t_Reader) k)
  /\ InterfaceOf 5 Reader_ptr w0 = InterfaceOf 1 Reader_ptr w0.
Proof.
  assert (H : InterfaceOf 1 Reader_ptr w0 = Ok (TBase t_Reader) w0)
    by by_running.
  split; [exact H |]. split.
  - exact (proj1 (InterfaceOf_result (U:=types) 1 Reader_ptr (TBase t_int)
                    (DInt 0) (DInt 0) w0) _ _ H).
  - apply (proj1 (proj2 (proj2 (InterfaceOf_result (U:=types) 1 Reader_ptr
                                  (TBase t_int) (DInt 0) (DInt 0) w0))) 5).
    + lia.
    + rewrite H. discriminate.
Defined.

Lemma three_levels_passes_up :
  passes_up three_levels (TBase t_int) 0 2 2.
Proof.
  eapply (passes_step (U:=types)); [by_running | | reflexivity |].
  { split; [reflexivity | left; discriminate]. }
  eapply (passes_step (U:=types)); [by_running | | reflexivity |].
  { split; [reflexivity | left; discriminate]. }
  constructor.
Defined.

(** The grandparent's value reaches the grandchild. *)
Lemma Get_walks_chain_witness :
  passes_up three_levels (TBase t_int) 0 2 2
  /\ Get 1 2 Int_ three_levels = Ok (int_ 7) three_levels
  /\ Get 3 0 Int_ three_levels = Ok (int_ 7) three_levels.
Proof.
  assert (H : Get 1 2 Int_ three_levels = Ok (int_ 7) three_levels)
    by by_running.
  split; [exact three_levels_passes_up |]. split; [exact H |].
  exact (Get_walks_chain (U:=types) three_levels (TBase t_int) 0 2 2 (int_ 7) 1
           three_levels_passes_up H).
Defined.



Lemma three_levels_chain : chain three_levels 0 3.
Proof.
  eapply (chain_child (U:=types)); [by_running | reflexivity |].
  eapply (chain_child (U:=types)); [by_running | reflexivity |].
  eapply (chain_root (U:=types)); [by_running | reflexivity].
Defined.

(** Three registries: three nested calls answer, and more change nothing. *)
Lemma Get_on_ending_chain_witness :
  chain three_levels 0 3
  /\ Get (3 + 4) 0 Reader three_levels = Get 3 0 Reader three_levels
  /\ Get 3 0 Reader three_levels <> Timeout.
Proof.
  split; [exact three_levels_chain |].
  exact (Get_on_ending_chain (U:=types) three_levels 0 3 Reader
           three_levels_chain 4).
Defined.

(** A child detached from a parent that maps [int]. *)
Lemma SetParent_nil_detaches_witness :
  injectors (child_parent [] [(Int_, int_ 7)]) !! 0
    = Some (mkInjector [] (Some 1))
  /\ Get 2 0 Int_ (child_parent [] [(Int_, int_ 7)])
     = Ok (int_ 7) (child_parent [] [(Int_, int_ 7)])
  /\ exists w',
       SetParent 0 None (child_parent [] [(Int_, int_ 7)]) = Ok tt w'
       /\ Get 2 0 Int_ w' = Ok Zero w'.
Proof.
  assert (H : injectors (child_parent [] [(Int_, int_ 7)]) !! 0
              = Some (mkInjector [] (Some 1))) by by_running.
  split; [exact H |]. split; [by_running |].
  apply (SetParent_nil_detaches (U:=types) 1 0 _ _ (TBase t_int) H).
  split; [reflexivity | left; discriminate].
Defined.

(** The value a child returns is stored in its parent. *)
Lemma Get_returns_stored_witness :
  Get 2 0 Int_ (child_parent [] [(Int_, int_ 7)])
    = Ok (int_ 7) (child_parent [] [(Int_, int_ 7)])
  /\ exists j inj k,
       ancestor (child_parent [] [(Int_, int_ 7)]) 0 j
       /\ injectors (child_parent [] [(Int_, int_ 7)]) !! j = Some inj
       /\ (k, int_ 7) ∈ values inj.
Proof.
  assert (H : Get 2 0 Int_ (child_parent [] [(Int_, int_ 7)])
              = Ok (int_ 7) (child_parent [] [(Int_, int_ 7)])) by by_running.
  split; [exact H |].
  exact (Get_returns_stored (U:=types) 2 0 Int_ _ _ _ H eq_refl).
Defined.

(** A [Service] passed by value to an injector that maps nothing. *)
Lemma Apply_nothing_to_inject_witness :
  Indirect 1 (mem (single [])) (ValueOf (Val (TBase t_Service) service_zero))
    = Some (Val (TBase t_Service) service_zero, None)
  /\ Apply 1 0 (Val (TBase t_Service) service_zero) (single [])
     = Ok None (single []).
Proof.
  assert (H : Indirect 1 (mem (single []))
                (ValueOf (Val (TBase t_Service) service_zero))
              = Some (Val (TBase t_Service) service_zero, None)) by reflexivity.
  split; [exact H |].
  apply (Apply_nothing_to_inject (U:=types) 1 0 _ _ _ _ H). by left.
Defined.

Lemma service_fields_resolved :
  Forall (fun f => injectable (Some 1) f = true ->
            exists v,
              Get 1 0 (Some (FieldType f))
                (with_service [(Reader, file); (Int_, int_ 8080)])
                = Ok v (with_service [(Reader, file); (Int_, int_ 8080)])
              /\ assignable_arg v (FieldType f) = true)
         (Fields t_Service).
Proof.
  repeat constructor.
  - intros _. exists file. split; [by_running | reflexivity].
  - intros _. exists (int_ 8080). split; [by_running | reflexivity].
  - intros H. discriminate H.
  - intros H. discriminate H.
Defined.

(** [Reader] and [int] mapped: both tagged, exported fields of a [Service]
    are filled. *)
Lemma Apply_all_resolved_witness :
  Indirect 1 (mem (with_service [(Reader, file); (Int_, int_ 8080)]))
           (ValueOf service_ptr)
    = Some (Val (TBase t_Service) service_zero, Some 1)
  /\ exists fs',
       Apply 1 0 service_ptr (with_service [(Reader, file); (Int_, int_ 8080)])
         = Ok None
             (mkWorld (injectors (with_service [(Reader, file); (Int_, int_ 8080)]))
                (<[1 := DStruct fs']>
                   (mem (with_service [(Reader, file); (Int_, int_ 8080)]))))
       /\ fs' !! 2 = Some (DString "").
Proof.
  assert (Hind : Indirect 1 (mem (with_service [(Reader, file); (Int_, int_ 8080)]))
                   (ValueOf service_ptr)
                 = Some (Val (TBase t_Service) service_zero, Some 1))
    by by_running.
  split; [exact Hind |].
  destruct (Apply_all_resolved (U:=types) 1 0 service_ptr
              (with_service [(Reader, file); (Int_, int_ 8080)])
              t_Service service_zero 1
              [DIface Zero; DInt 0; DString ""; DString ""]
              Hind eq_refl ltac:(by_running) eq_refl service_fields_resolved)
    as (fs' & Hrun & _ & _ & Hkeep).
  exists fs'. split; [exact Hrun |].
  rewrite (Hkeep 2); [reflexivity |]. intros f [= <-]. reflexivity.
Defined.

(** [Apply] twice on the same [Service], the second time also with the
    entries of the registry in the other order. *)
Lemma Apply_idempotent_witness :
  injectors (with_service [(Reader, file); (Int_, int_ 8080)]) !! 0
    = Some (mkInjector [(Reader, file); (Int_, int_ 8080)] None)
  /\ exists w1,
       Apply 1 0 service_ptr (with_service [(Reader, file); (Int_, int_ 8080)])
         = Ok None w1
       /\ Apply 1 0 service_ptr w1 = Ok None w1
       /\ Apply 1 0 service_ptr
            (mkWorld {[ 0 := mkInjector [(Int_, int_ 8080); (Reader, file)] None ]}
                     (mem w1))
          = Ok None
              (mkWorld {[ 0 := mkInjector [(Int_, int_ 8080); (Reader, file)] None ]}
                       (mem w1)).
Proof.
  assert (H : injectors (with_service [(Reader, file); (Int_, int_ 8080)]) !! 0
              = Some (mkInjector [(Reader, file); (Int_, int_ 8080)] None))
    by by_running.
  split; [exact H |].
  destruct (Apply_idempotent (U:=types) 0 0
              (with_service [(Reader, file); (Int_, int_ 8080)]) _ t_Service 1
              [DIface Zero; DInt 0; DString ""; DString ""]
              H eq_refl ltac:(by_running))
    as (w1 & Hrun & Hinj & Hagain).
  { repeat constructor; intros Hf; try discriminate Hf; reflexivity. }
  exists w1. split; [exact Hrun |]. split.
  - apply Hagain; [reflexivity |].
    exists (mkInjector [(Reader, file); (Int_, int_ 8080)] None),
           (mkInjector [(Reader, file); (Int_, int_ 8080)] None).
    split; [exact H |]. split; [by rewrite Hinj |]. split; reflexivity.
  - apply Hagain; [reflexivity |].
    exists (mkInjector [(Reader, file); (Int_, int_ 8080)] None),
           (mkInjector [(Int_, int_ 8080); (Reader, file)] None).
    split; [exact H |]. split; [by_running |]. split; [reflexivity |].
    intros t. simpl. unfold Int_, Reader. repeat case_decide; congruence.
Defined.

(** A [Loop] that points to itself. *)
Lemma Apply_pointer_cycle_never_returns_witness :
  mem (mkWorld ∅ {[ 5 := DPtr (Some 5) ]}) !! 5 = Some (DPtr (Some 5))
  /\ Apply 3 0 (Val (TBase t_Loop) (DPtr (Some 5)))
       (mkWorld ∅ {[ 5 := DPtr (Some 5) ]}) = Timeout.
Proof.
  assert (H : mem (mkWorld (U:=types) ∅ {[ 5 := DPtr (Some 5) ]}) !! 5
              = Some (DPtr (Some 5))) by by_running.
  split; [exact H |].
  exact (Apply_pointer_cycle_never_returns (U:=types) 3 0 (TBase t_Loop) 5 _
           eq_refl eq_refl H).
Defined.

(** [Invoke] of an integer. *)
Lemma Invoke_not_a_function_witness :
  (exists tf, TypeOf (int_ 3) = Some tf /\ Type_Kind tf <> Func)
  /\ exists msg, forall code fuel i w, Invoke code fuel i (int_ 3) w = Panic msg.
Proof.
  assert (H : exists tf, TypeOf (int_ 3) = Some tf /\ Type_Kind tf <> Func)
    by (exists (TBase t_int); split; [reflexivity | discriminate]).
  split; [exact H |].
  exact (Invoke_not_a_function (U:=types) (int_ 3) (or_intror H)).
Defined.

(** [Set(int, reflect.Value{})] on a registry that maps [int]. *)
Lemma Set_zero_unmaps_witness :
  injectors (single [(Int_, int_ 7)]) !! 0
    = Some (mkInjector [(Int_, int_ 7)] None)
  /\ Get 1 0 Int_ (single [(Int_, int_ 7)])
     = Ok (int_ 7) (single [(Int_, int_ 7)])
  /\ exists w',
       Set_ 0 Int_ Zero (single [(Int_, int_ 7)]) = Ok 0 w'
       /\ Get 1 0 Int_ w' = Ok Zero w'.
Proof.
  assert (H : injectors (single [(Int_, int_ 7)]) !! 0
              = Some (mkInjector [(Int_, int_ 7)] None)) by by_running.
  split; [exact H |]. split; [by_running |].
  apply (Set_zero_unmaps (U:=types) 0 0 _ _ (TBase t_int) H). discriminate.
Defined.

(** After [Map(nil)] and [Map(File{})], with the nil key visited first,
    [Get(Reader)] panics although a [File] is mapped. *)
Lemma Get_nil_key_panics_witness :
  injectors (single [(None, Zero); (Some (TBase t_File), file)]) !! 0
    = Some (mkInjector [(None, Zero); (Some (TBase t_File), file)] None)
  /\ Get 1 0 Reader (single [(None, Zero); (Some (TBase t_File), file)])
     = Panic nil_deref.
Proof.
  assert (H : injectors (single [(None, Zero); (Some (TBase t_File), file)]) !! 0
              = Some (mkInjector [(None, Zero); (Some (TBase t_File), file)]
                        None)) by by_running.
  split; [exact H |].
  apply (Get_nil_key_panics (U:=types) 0 0 _ _ (TBase t_Reader) [] Zero
           [(Some (TBase t_File), file)] H); [reflexivity .. | constructor].
Defined.
